(** * das2go: the fetch-and-aggregate core

    A shallow embedding of the parts of das2go that its specification
    makes claims about, followed by the proofs that settle them:

    - [Mongo]: the DAS record type and its dotted-key accessors
      (package mongo);
    - [Services]: the run/lumi aggregation helpers of the DBS local APIs
      (package services);
    - [Utils]: the TLS certificate manager, the URL fetcher with its retry
      loop, and the request queue of the URL fetch worker (package utils).

    Go values are modelled as the code has them: [int], [int64] and
    time instants as [Z], strings as [string], slices as lists, [nil] and
    [error] as [option], maps as [gmap].  A call that panics has an outcome
    of its own.  What the code reads from the outside (the clock, the
    network, the certificate files) is an oracle held in an explicit world
    record that the functions thread through. *)

From stdpp Require Import gmap strings list fin_maps.
From Stdlib Require Import ZArith Ascii ZifyNat.
#[local] Set Warnings "-register-all".
#[local] Ltac Zify.zify_post_hook ::= Z.to_euclidean_division_equations.

(** * Part I: the program *)

(** ** The functions of Go's [strings] package that the code calls

    The separators and the replaced text used by the code are single bytes
    ("." and "#"), so [Split] and [ReplaceAll] take the byte; [ReplaceAll s
    old new] is [strings.Replace(s, old, new, -1)]. *)
Module GoStrings.

Fixpoint Split (s : string) (sep : ascii) : list string :=
  match s with
  | EmptyString => [EmptyString]
  | String c s' =>
      if Ascii.eqb c sep then EmptyString :: Split s' sep
      else match Split s' sep with
           | h :: t => String c h :: t
           | [] => [String c EmptyString]
           end
  end.

Fixpoint Join (elems : list string) (sep : string) : string :=
  match elems with
  | [] => EmptyString
  | [e] => e
  | e :: rest => e +:+ sep +:+ Join rest sep
  end.

Fixpoint Contains (s substr : string) : bool :=
  if String.prefix substr s then true
  else match s with
       | EmptyString => false
       | String _ s' => Contains s' substr
       end.

Fixpoint ReplaceAll (s : string) (old : ascii) (new : string) : string :=
  match s with
  | EmptyString => EmptyString
  | String c s' =>
      if Ascii.eqb c old then new +:+ ReplaceAll s' old new
      else String c (ReplaceAll s' old new)
  end.

End GoStrings.

(** ** Package mongo: DAS records and their accessors *)
Module Mongo.
Import GoStrings.

Definition error := string.

(** The dynamic types an [interface{}] stored in a record takes in this
    code.  [DASRecord] and [map[string]interface{}] are different dynamic
    types, and so are [[]DASRecord], [[]interface{}] and [[]float64]: a type
    assertion to one fails on the others.  A [float64] read from JSON is a
    finite number and the code only compares such numbers for equality and
    uses them as map keys, so it is represented by the integer it holds (run
    and lumi numbers are integers). *)
Inductive value : Type :=
  | VNil
  | VBool (b : bool)
  | VString (s : string)
  | VInt (n : Z)
  | VInt64 (n : Z)
  | VFloat64 (f : Z)
  | VSlice (l : list value)
  | VFloat64s (l : list Z)
  | VMap (m : gmap string value)
  | VRecord (r : gmap string value)
  | VRecords (l : list (gmap string value)).

Abbreviation DASRecord := (gmap string value).

(** What a call does: it returns a value and an error, or it panics. *)
Inductive outcome (A : Type) : Type :=
  | Return (v : A) (err : option error)
  | Panic.
Arguments Return {A} v err.
Arguments Panic {A}.

(** [rec[key]]: a missing key reads as the nil interface. *)
Definition index (rec : DASRecord) (key : string) : value :=
  default VNil (rec !! key).

Definition cast_error (key : string) : error :=
  "Unable to cast value for key '" +:+ key +:+ "'".

(** [GetStringValue], [GetIntValue] and [GetInt64Value] have the same body
    up to the type asserted on the last component and the zero value
    returned with the error; [accessor] is that body.  The functions recurse
    on a strictly shorter key; [fuel] bounds the depth of the recursion, and
    [accessor_Split] below shows that the length of the key is enough. *)
Section Accessor.
Context {A : Type} (assert : value -> option A) (zero : A).

Fixpoint accessor (fuel : nat) (rec : DASRecord) (key : string)
  : option (outcome A) :=
  match fuel with
  | O => None
  | S fuel =>
      let keys := Split key "." in
      if decide (1 < length keys)%nat then
        match index rec (List.hd EmptyString keys) with
        | VRecord val =>
            if decide (length keys = 2)%nat then
              accessor fuel val (List.nth 1 keys EmptyString)
            else accessor fuel val (Join (List.tl keys) ".")
        | _ => Some Panic
        end
      else
        match assert (index rec key) with
        | Some val => Some (Return val None)
        | None => Some (Return zero (Some (cast_error key)))
        end
  end.

(** The last step of an accessor, on the record that holds the final
    component. *)
Definition path_final (rec : DASRecord) (key : string) : outcome A :=
  match assert (index rec key) with
  | Some val => Return val None
  | None => Return zero (Some (cast_error key))
  end.

(** The accessor read off the list of path components. *)
Fixpoint walk (rec : DASRecord) (path : list string) : outcome A :=
  match path with
  | [] => Panic
  | [k] => path_final rec k
  | k :: path =>
      match index rec k with
      | VRecord val => walk val path
      | _ => Panic
      end
  end.

End Accessor.

Definition as_string (v : value) : option string :=
  match v with VString s => Some s | _ => None end.

Definition as_int (v : value) : option Z :=
  match v with VInt n => Some n | _ => None end.

Definition as_int64 (v : value) : option Z :=
  match v with VInt64 n => Some n | _ => None end.

Definition GetStringValue (rec : DASRecord) (key : string)
  : option (outcome string) :=
  accessor as_string EmptyString (S (String.length key)) rec key.

Definition GetIntValue (rec : DASRecord) (key : string) : option (outcome Z) :=
  accessor as_int 0%Z (S (String.length key)) rec key.

Definition GetInt64Value (rec : DASRecord) (key : string) : option (outcome Z) :=
  accessor as_int64 0%Z (S (String.length key)) rec key.

(** Following the intermediate components of a path: [None] exactly when
    one of them is absent or holds something that is not a [DASRecord]. *)
Fixpoint descend (rec : DASRecord) (path : list string) : option DASRecord :=
  match path with
  | [] => Some rec
  | k :: path =>
      match index rec k with
      | VRecord val => descend val path
      | _ => None
      end
  end.

Definition nested_record : DASRecord :=
  {[ "run" := VRecord {[ "run_number" := VInt 100 ]} ]}.

End Mongo.

(** ** Package services: run/lumi aggregation *)
Module Services.
Import GoStrings Mongo.

Abbreviation float64 := Z.

(** The three wrapped values [file_run_lumi] stores in a row:
    [[]mongo.DASRecord{mongo.DASRecord{"run_number": rec[key]}}] and its
    siblings. *)
Definition run_row (v : value) : value := VRecords [ {[ "run_number" := v ]} ].

Definition lumi_row (v : value) : value := VRecords [ {[ "number" := v ]} ].

Definition file_row (v : value) : value := VRecords [ {[ "name" := v ]} ].

(** One turn of the inner loop of [file_run_lumi], over the requested keys. *)
Definition set_key (rec : DASRecord) (row : DASRecord) (key : string) : DASRecord :=
  if decide (key = "run_num") then <["run" := run_row (index rec key)]> row
  else if decide (key = "lumi_section_num") then
    <["lumi" := lumi_row (index rec key)]> row
  else if decide (key = "logical_file_name") then
    <["file" := file_row (index rec key)]> row
  else row.

Definition make_row (keys : list string) (rec : DASRecord) : DASRecord :=
  foldl (set_key rec) ∅ keys.

(** [for _, v := range lumiList { ... append(..., v.(float64)) }]: the
    assertion panics on the first element that is not a [float64]. *)
Fixpoint floats (lumiList : list value) : option (list float64) :=
  match lumiList with
  | [] => Some []
  | VFloat64 f :: rest => cons f <$> floats rest
  | _ :: _ => None
  end.

(** One turn of the first loop of [OrderByRunLumis]; [None] is a panic of
    one of the type assertions.  [mongo.GetValue] is not part of the
    sources at hand, so the function takes it as a parameter. *)
Definition merge_record (GetValue : DASRecord -> string -> value)
    (rmap : gmap float64 (list float64)) (r : DASRecord)
  : option (gmap float64 (list float64)) :=
  match GetValue r "lumi.number" with
  | VSlice lumiList =>
      match GetValue r "run.run_number" with
      | VFloat64 run =>
          match rmap !! run with
          | Some lumis => vs ← floats lumiList; Some (<[run := lumis ++ vs]> rmap)
          | None => lumiValues ← floats lumiList; Some (<[run := lumiValues]> rmap)
          end
      | _ => None
      end
  | _ => None
  end.

Fixpoint merge_records (GetValue : DASRecord -> string -> value)
    (rmap : gmap float64 (list float64)) (records : list DASRecord)
  : option (gmap float64 (list float64)) :=
  match records with
  | [] => Some rmap
  | r :: rest =>
      rmap' ← merge_record GetValue rmap r; merge_records GetValue rmap' rest
  end.

(** The record built in the second loop of [OrderByRunLumis]:
    [mongo.DASRecord{"run": mongo.DASRecord{"run_number": run},
                     "lumi": mongo.DASRecord{"number": lumis}}]. *)
Definition run_lumi_record (run : float64) (lumis : list float64) : DASRecord :=
  {[ "run" := VRecord {[ "run_number" := VFloat64 run ]};
     "lumi" := VRecord {[ "number" := VFloat64s lumis ]} ]}.

(** Go leaves the order in which [range] visits a map unspecified; the
    model emits the records in the order of [map_to_list], and what is
    proved about the output does not depend on the order. *)
Definition OrderByRunLumis (GetValue : DASRecord -> string -> value)
    (records : list DASRecord) : option (list DASRecord) :=
  rmap ← merge_records GetValue ∅ records;
  Some ((λ kv, run_lumi_record kv.1 kv.2) <$> map_to_list rmap).

(** [file_run_lumi] from the point where the [filelumis] records have been
    fetched from DBS and unmarshalled (those steps go through the network
    and are inputs here). *)
Definition file_run_lumi (GetValue : DASRecord -> string -> value)
    (filelumis : list DASRecord) (keys : list string) : option (list DASRecord) :=
  let out := make_row keys <$> filelumis in
  if decide (length keys = 2) then
    if decide (keys !! 0 = Some "run_num" ∧ keys !! 1 = Some "lumi_section_num")
    then OrderByRunLumis GetValue out
    else if decide (keys !! 0 = Some "lumi_section_num" ∧ keys !! 1 = Some "run_num")
    then OrderByRunLumis GetValue out
    else Some out
  else Some out.

(** Modelled from the spec: [mongo.GetValue] is called by [OrderByRunLumis]
    but its body is not in the mongo package as given.  By the field-shape
    invariant of section 4.5 of the specification a relation key holds a
    single-element list of Record, and [OrderByRunLumis] reads "lumi.number"
    and "run.run_number" from the rows of [file_run_lumi]; so the model
    resolves a dotted key through nested records and through the first
    element of a list of records, and yields nil where the path ends early.
    It serves as a concrete instance of the parameter above. *)
Fixpoint GetValue_keys (v : value) (keys : list string) : value :=
  match keys with
  | [] => v
  | k :: rest =>
      match v with
      | VRecord r => GetValue_keys (index r k) rest
      | VRecords (r :: _) => GetValue_keys (index r k) rest
      | _ => VNil
      end
  end.

Definition GetValue (rec : DASRecord) (key : string) : value :=
  GetValue_keys (VRecord rec) (Split key ".").

(** *** Notions used to state the properties of the merge *)

(** The run and the lumi numbers that [OrderByRunLumis] reads from a record. *)
Definition run_lumis (GetValue : DASRecord -> string -> value) (r : DASRecord)
  : option (float64 * list float64) :=
  match GetValue r "lumi.number" with
  | VSlice lumiList =>
      match GetValue r "run.run_number" with
      | VFloat64 run => vs ← floats lumiList; Some (run, vs)
      | _ => None
      end
  | _ => None
  end.

(** Merging two run-to-lumis maps the way the loop does: the lists of a run
    present in both are appended. *)
Definition append_lumis (m1 m2 : gmap float64 (list float64))
  : gmap float64 (list float64) :=
  union_with (λ a b, Some (a ++ b)) m1 m2.

Definition record_run (rec : DASRecord) : option float64 :=
  match rec !! "run" with
  | Some (VRecord r) =>
      match r !! "run_number" with Some (VFloat64 run) => Some run | _ => None end
  | _ => None
  end.

Definition record_lumis (rec : DASRecord) : option (list float64) :=
  match rec !! "lumi" with
  | Some (VRecord r) =>
      match r !! "number" with Some (VFloat64s lumis) => Some lumis | _ => None end
  | _ => None
  end.

(** The field-shape invariant: a relation key, when present, holds a
    one-element list of records. *)
Definition wrapped (v : value) : bool :=
  match v with
  | VRecords [_] => true
  | _ => false
  end.

Definition relation_keys : list string := ["run"; "lumi"; "file"; "block"; "dataset"].

Definition well_shaped (rec : DASRecord) : bool :=
  forallb (λ k, match rec !! k with Some v => wrapped v | None => true end)
    relation_keys.

(** A [filelumis] record of DBS for run 100 with lumi sections 1 and 2, and
    the keys of the [run_lumi4dataset] API. *)
Definition filelumi_100 : DASRecord :=
  {[ "run_num" := VFloat64 100;
     "lumi_section_num" := VSlice [VFloat64 1; VFloat64 2] ]}.

Definition run_lumi_keys : list string := ["run_num"; "lumi_section_num"].

End Services.

(** ** Package utils: certificates, fetching and the request queue *)
Module Utils.
Import GoStrings.
#[local] Open Scope Z_scope.

Definition error := string.

(** Instants and durations in nanoseconds.  The zero [time.Time] is
    instant 0; every instant the clock shows is later. *)
Definition time_Time := Z.

Definition Duration := Z.

Definition Millisecond : Duration := 1000000.

Definition Second : Duration := 1000000000.

(** Wrap-around of [atomic.AddInt32] and [atomic.AddUint64]. *)
Definition wrap_int32 (x : Z) : Z := (x + 2^31) mod 2^32 - 2^31.

Definition wrap_uint64 (x : Z) : Z := x mod 2^64.

(** *** The TLS certificate manager *)

(** [tls.Certificate]: the chain of DER blocks, leaf first. *)
Record tls_Certificate := { Certificate : list string }.

(** [Certs] is [None] for the nil slice. *)
Record TLSCertsManager := { Certs : option (list tls_Certificate); Expire : time_Time }.

(** The renewal interval is a package variable; [x509.ParseCertificate]
    belongs to the Go library and is given by what it returns on a DER
    block: the [NotAfter] of the certificate, or [None] for an error. *)
Record TLSConfig := {
  TLSCertsRenewInterval : Duration;
  x509_ParseCertificate : string -> option time_Time;
}.

(** What [GetCerts] reads from outside: the successive readings of
    [time.Now()] and the successive results of [tlsCerts()], which reads
    the environment and the certificate files. *)
Record TLSWorld := {
  clock : nat -> time_Time;
  clock_reads : nat;
  tlsCerts_result : nat -> option (list tls_Certificate) * option error;
  tlsCerts_calls : nat;
}.

Definition time_Now (w : TLSWorld) : time_Time * TLSWorld :=
  (clock w (clock_reads w),
   {| clock := clock w; clock_reads := S (clock_reads w);
      tlsCerts_result := tlsCerts_result w; tlsCerts_calls := tlsCerts_calls w |}).

Definition tlsCerts (w : TLSWorld)
  : (option (list tls_Certificate) * option error) * TLSWorld :=
  (tlsCerts_result w (tlsCerts_calls w),
   {| clock := clock w; clock_reads := clock_reads w;
      tlsCerts_result := tlsCerts_result w; tlsCerts_calls := S (tlsCerts_calls w) |}).

(** [Fatal] is [log.Fatal]: the process exits.  [IndexPanic] is the panic of
    [cert.Certificate[0]] on a certificate without blocks. *)
Inductive GetCertsResult :=
  | Returned (certs : option (list tls_Certificate)) (err : option error)
  | Fatal (msg : string)
  | IndexPanic.

Fixpoint CertExpire (cfg : TLSConfig) (certs : list tls_Certificate)
  : option time_Time :=
  match certs with
  | [] => Some 0
  | cert :: rest =>
      match Certificate cert with
      | [] => None
      | der :: _ =>
          match x509_ParseCertificate cfg der with
          | Some notAfter => Some notAfter
          | None => CertExpire cfg rest
          end
      end
  end.

(** The condition of the [if]:
    [t.Certs == nil || time.Since(t.Expire) > TLSCertsRenewInterval]. *)
Definition renewal_due (cfg : TLSConfig) (t : TLSCertsManager) (w : TLSWorld)
  : bool * TLSWorld :=
  match Certs t with
  | None => (true, w)
  | Some _ =>
      let '(now, w) := time_Now w in
      (bool_decide (now - Expire t > TLSCertsRenewInterval cfg), w)
  end.

(** The branches on the result of [tlsCerts()]; the first component is
    [Some] when the call ends there. *)
Definition store_certs (cfg : TLSConfig)
    (res : option (list tls_Certificate) * option error)
    (t : TLSCertsManager) (w : TLSWorld)
  : option GetCertsResult * TLSCertsManager * TLSWorld :=
  match res with
  | (certs, None) => (None, {| Certs := certs; Expire := Expire t |}, w)
  | (_, Some err) =>
      match Certs t with
      | Some old =>
          let '(now, w) := time_Now w in
          let ts := now + 600 * Second in
          match CertExpire cfg old with
          | Some notAfter =>
              if bool_decide (notAfter > ts)
              then (None, {| Certs := Certs t; Expire := ts |}, w)
              else (None, t, w)
          | None => (Some IndexPanic, t, w)
          end
      | None => (Some (Fatal ("ERROR " +:+ err)), t, w)
      end
  end.

(** [GetCerts] run by one caller alone.  Its mutex is a variable of the
    call, so locking it always succeeds at once; the interleaved model below
    makes the mutex explicit. *)
Definition GetCerts (cfg : TLSConfig) (t : TLSCertsManager) (w : TLSWorld)
  : GetCertsResult * TLSCertsManager * TLSWorld :=
  let '(due, w) := renewal_due cfg t w in
  if due then
    let '(now, w) := time_Now w in
    let t := {| Certs := Certs t; Expire := now |} in
    let '(res, w) := tlsCerts w in
    match store_certs cfg res t w with
    | (Some stop, t, w) => (stop, t, w)
    | (None, t, w) => (Returned (Certs t) None, t, w)
    end
  else (Returned (Certs t) None, t, w).

(** *** Concurrent calls of GetCerts

    Each caller is at one of the statements of [GetCerts]; a step runs the
    statement of one caller on the shared manager.  [var lock =
    sync.Mutex{}] allocates a mutex for the call ([mutexes] holds the
    locked flag of every mutex allocated so far), and [lock.Lock()] can
    only be taken by a caller when that mutex is free. *)
Inductive GetCertsPC :=
  | AtEntry
  | AtLock (lock : nat)
  | AtCheck (lock : nat)
  | AtRenew (lock : nat)
  | AtLoad (lock : nat)
  | AtStore (lock : nat) (res : option (list tls_Certificate) * option error)
  | AtReturn (lock : nat)
  | Finished (r : GetCertsResult).

Record Shared := {
  tlsManager : TLSCertsManager;
  world : TLSWorld;
  mutexes : list bool;
}.

Definition GetCerts_step (cfg : TLSConfig) (s : Shared) (pc : GetCertsPC)
  : option (Shared * GetCertsPC) :=
  match pc with
  | AtEntry =>
      Some ({| tlsManager := tlsManager s; world := world s;
               mutexes := mutexes s ++ [false] |},
            AtLock (length (mutexes s)))
  | AtLock lock =>
      match mutexes s !! lock with
      | Some false =>
          Some ({| tlsManager := tlsManager s; world := world s;
                   mutexes := <[lock := true]> (mutexes s) |},
                AtCheck lock)
      | _ => None
      end
  | AtCheck lock =>
      let '(due, w) := renewal_due cfg (tlsManager s) (world s) in
      Some ({| tlsManager := tlsManager s; world := w; mutexes := mutexes s |},
            if due then AtRenew lock else AtReturn lock)
  | AtRenew lock =>
      let '(now, w) := time_Now (world s) in
      Some ({| tlsManager := {| Certs := Certs (tlsManager s); Expire := now |};
               world := w; mutexes := mutexes s |},
            AtLoad lock)
  | AtLoad lock =>
      let '(res, w) := tlsCerts (world s) in
      Some ({| tlsManager := tlsManager s; world := w; mutexes := mutexes s |},
            AtStore lock res)
  | AtStore lock res =>
      match store_certs cfg res (tlsManager s) (world s) with
      | (Some stop, t, w) =>
          Some ({| tlsManager := t; world := w; mutexes := mutexes s |}, Finished stop)
      | (None, t, w) =>
          Some ({| tlsManager := t; world := w; mutexes := mutexes s |}, AtReturn lock)
      end
  | AtReturn lock =>
      Some ({| tlsManager := tlsManager s; world := world s;
               mutexes := <[lock := false]> (mutexes s) |},
            Finished (Returned (Certs (tlsManager s)) None))
  | Finished _ => None
  end.

Record System := { shared : Shared; callers : list GetCertsPC }.

(** The scheduler lets caller [i] take a step; a caller that is blocked or
    has finished stays where it is. *)
Definition schedule_step (cfg : TLSConfig) (sys : System) (i : nat) : System :=
  match callers sys !! i with
  | Some pc =>
      match GetCerts_step cfg (shared sys) pc with
      | Some (s, pc') => {| shared := s; callers := <[i := pc']> (callers sys) |}
      | None => sys
      end
  | None => sys
  end.

Definition run_schedule (cfg : TLSConfig) (sys : System) (schedule : list nat)
  : System :=
  foldl (schedule_step cfg) sys schedule.

(** A caller is refreshing from the moment it has decided to reload until
    it has stored the result. *)
Definition refreshing (pc : GetCertsPC) : bool :=
  match pc with
  | AtRenew _ | AtLoad _ | AtStore _ _ => true
  | _ => false
  end.

Definition one_caller (t : TLSCertsManager) (w : TLSWorld) : System :=
  {| shared := {| tlsManager := t; world := w; mutexes := [] |};
     callers := [AtEntry] |}.

Definition two_callers (t : TLSCertsManager) (w : TLSWorld) : System :=
  {| shared := {| tlsManager := t; world := w; mutexes := [] |};
     callers := [AtEntry; AtEntry] |}.

(** Example data: a parser that reads the expiry off the length of the
    block (one hour per byte), a proxy certificate that expires at hour 4,
    and worlds whose clock starts at [start] and advances by a second per
    reading. *)
Definition tls_cfg : TLSConfig :=
  {| TLSCertsRenewInterval := 600 * Second;
     x509_ParseCertificate := λ der,
       if decide (der = EmptyString) then None
       else Some (Z.of_nat (String.length der) * 3600 * Second) |}.

Definition proxy_cert : tls_Certificate := {| Certificate := ["leaf"; "chain"] |}.

Definition failing_world (start : time_Time) : TLSWorld :=
  {| clock := λ n, start + Z.of_nat n * Second; clock_reads := 0;
     tlsCerts_result := λ _, (None, Some "failed to parse X509 proxy");
     tlsCerts_calls := 0 |}.

Definition loading_world (start : time_Time) : TLSWorld :=
  {| clock := λ n, start + Z.of_nat n * Second; clock_reads := 0;
     tlsCerts_result := λ _, (Some [proxy_cert], None);
     tlsCerts_calls := 0 |}.

Definition stale_manager : TLSCertsManager :=
  {| Certs := Some [proxy_cert]; Expire := 0 |}.

Definition one_day : time_Time := 24 * 3600 * Second.

(** *** Fetching a URL *)

(** How a call ends: it returns, it panics, or the process exits
    ([log.Fatal], [log.Fatalf]).  A deferred call runs when the function
    returns or panics, and does not run when the process exits. *)
Inductive Outcome (A : Type) : Type :=
  | Returns (a : A)
  | Panics (msg : string)
  | Exits (msg : string).
Arguments Returns {A} a.
Arguments Panics {A} msg.
Arguments Exits {A} msg.

#[export] Instance Outcome_ret : MRet Outcome := @Returns.

#[export] Instance Outcome_bind : MBind Outcome := λ A B f o,
  match o with
  | Returns a => f a
  | Panics msg => Panics msg
  | Exits msg => Exits msg
  end.

Record ResponseType := {
  Url : string;
  Data : string;
  Error : option error;
  Time : Duration;
  Params : string;
  Method : string;
  SendBytes : Z;
  RecvBytes : Z;
}.

Record http_Request := {
  req_Method : string;
  req_URL : string;
  req_Body : string;
  req_Header : list (string * string);
}.

Definition Header_Add (h : list (string * string)) (k v : string)
  : list (string * string) :=
  h ++ [(k, v)].

Definition Header_Set (h : list (string * string)) (k v : string)
  : list (string * string) :=
  filter (λ kv, kv.1 ≠ k) h ++ [(k, v)].

(** What [client.Do] and the reading of the body come to: an error of the
    transport, or a response with its Content-Encoding, the error of
    [gzip.NewReader] if there is one, the bytes read and the error of
    [ioutil.ReadAll]; with the time the exchange took. *)
Inductive RoundTrip :=
  | DoError (err : error) (elapsed : Duration)
  | DoResponse (ContentEncoding : string) (gzip_NewReader : option error)
      (body : string) (ReadAll : option error) (elapsed : Duration).

(** [http.Client] as [HttpClient] builds it: [Transport] is [None] for the
    default transport and holds the TLS configuration of the transport
    otherwise; a [Timeout] of zero means no timeout. *)
Record tls_Config := {
  Certificates : list tls_Certificate;
  InsecureSkipVerify : bool;
}.

Record http_Client := {
  Transport : option tls_Config;
  Timeout : Duration;
}.

(** [out] names the channel of the caller; [client] is [None] for a nil
    [*http.Client]. *)
Record UrlRequest := {
  rurl : string;
  args : string;
  out : nat;
  ts : Z;
  client : option http_Client;
}.

(** The package variables the fetcher reads, and the parts that live
    outside the sources at hand, taken as parameters: the regular
    expression [PatternUrl], the DNS cache resolver of package dcr,
    [RucioAuth], the error of [http.NewRequest] on a URL ([None] when the
    URL parses; the methods the code passes are always valid), and, for
    [readToken], whether [os.Stat] succeeds on a path and what
    [os.ReadFile] returns on it (the files are taken not to change during
    a call). *)
Record Config := {
  WEBSERVER : Z;
  KEEP_ALIVE : bool;
  TIMEOUT : Z;
  Token : string;
  CLIENT_VERSION : string;
  UseDNSCache : bool;
  UrlQueueLimit : Z;
  UrlRetry : Z;
  TLS : TLSConfig;
  PatternUrl_MatchString : string -> bool;
  DNSCacheMgr_Resolve : string -> string;
  http_NewRequest_error : string -> option error;
  os_Stat : string -> bool;
  os_ReadFile : string -> string + error;
  RucioAuth_Token : string * option error;
  RucioAuth_Account : string;
}.

(** The state the fetcher works on.  [transport k req] is what the [k]-th
    call of [client.Do] gives on request [req], whichever client makes it;
    [dispatched] lists the requests handed to [client.Do]; [slept] lists the
    arguments of [time.Sleep]; [channels] holds, for every response channel,
    the values sent on it so far; [UrlRequestChannel] holds the requests
    sent to the worker and not yet received; [manager] is the package
    variable [tlsManager] and [tls] the world its [GetCerts] reads.
    [FetchResponse_calls] is a ghost counter of the invocations of
    [FetchResponse]. *)
Record World := {
  now : time_Time;
  transport : nat -> http_Request -> RoundTrip;
  dispatched : list http_Request;
  slept : list Duration;
  UrlQueueSize : Z;
  TotalGetCalls : Z;
  TotalPostCalls : Z;
  channels : gmap nat (list ResponseType);
  UrlRequestChannel : list UrlRequest;
  manager : TLSCertsManager;
  tls : TLSWorld;
  FetchResponse_calls : nat;
}.

Definition validateUrl (cfg : Config) (rurl : string) : bool :=
  if decide (0 < String.length rurl)%nat then
    if PatternUrl_MatchString cfg rurl then true else false
  else false.

(** [if strings.Contains(rurl, "#") { rurl = strings.Replace(rurl, "#",
    "%23", -1) }] *)
Definition escape_hash (rurl : string) : string :=
  if Contains rurl "#" then ReplaceAll rurl "#" "%23" else rurl.

Definition resolve (cfg : Config) (rurl : string) : string :=
  if UseDNSCache cfg then
    if Contains rurl "cmsweb" || Contains rurl "cms-rucio.cern.ch"
    then DNSCacheMgr_Resolve cfg rurl else rurl
  else rurl.

Definition newline : ascii := ascii_of_nat 10.

(** [readToken]: the content of the file [r] without its newlines when
    [os.Stat] succeeds on [r], and [r] itself otherwise; [log.Fatalf] when
    the file cannot be read. *)
Definition readToken (cfg : Config) (r : string) : Outcome string :=
  if os_Stat cfg r then
    match os_ReadFile cfg r with
    | inl b => Returns (ReplaceAll b newline EmptyString)
    | inr e => Exits ("Unable to read data from file: " +:+ r +:+ ", error: " +:+ e)
    end
  else Returns r.

(** The headers [FetchResponse] sets once the request exists, in the order
    of the code; the call of [readToken] in their middle can exit. *)
Definition set_headers (cfg : Config) (rurl : string) (h : list (string * string))
  : Outcome (list (string * string)) :=
  let h := if KEEP_ALIVE cfg
           then Header_Add (Header_Add h "Connection" "Keep-Alive")
                  "Keep-Alive" "timeout=5, max=1000"
           else h in
  let h := if Contains rurl "dbs" then Header_Add h "Accept-Encoding" "gzip" else h in
  h ← (if decide (Token cfg ≠ EmptyString) then
         token ← readToken cfg (Token cfg);
         mret (Header_Set h "Authorization" ("Bearer " +:+ token))
       else mret h);
  let h := if Contains rurl "rucio" then
             let h := match RucioAuth_Token cfg with
                      | (token, None) => Header_Add h "X-Rucio-Auth-Token" token
                      | (_, Some _) => h
                      end in
             let h := Header_Add h "Accept" "application/x-json-stream" in
             let h := Header_Add h "Connection" "Keep-Alive" in
             if decide (WEBSERVER cfg > 0)
             then Header_Add h "X-Rucio-Account" (RucioAuth_Account cfg) else h
           else h in
  let h := if decide (CLIENT_VERSION cfg ≠ EmptyString)
           then Header_Set h "User-Agent" ("dasgoclient/" +:+ CLIENT_VERSION cfg)
           else Header_Set h "User-Agent" "dasgoserver" in
  mret h.

(** The request built by [FetchResponse], headers included.  The code
    drops the error of [http.NewRequest] ([req, _ = http.NewRequest(...)])
    and goes on to [req.Header]: when [http.NewRequest] has failed, [req]
    is nil and the call panics before anything else is done. *)
Definition new_request (cfg : Config) (rurl args : string) : Outcome http_Request :=
  match http_NewRequest_error cfg rurl with
  | Some _ => Panics "invalid memory address or nil pointer dereference"
  | None =>
      let req :=
        if decide (0 < String.length args)%nat then
          {| req_Method := "POST"; req_URL := rurl; req_Body := args;
             req_Header := Header_Set [] "Content-Type" "application/json" |}
        else
          let h := Header_Add [] "Accept-Encoding" "identity" in
          let h := if Contains rurl "sitedb" || Contains rurl "reqmgr"
                      || Contains rurl "mcm"
                   then Header_Add h "Accept" "application/json" else h in
          {| req_Method := "GET"; req_URL := rurl; req_Body := EmptyString;
             req_Header := h |} in
      h ← set_headers cfg rurl (req_Header req);
      mret {| req_Method := req_Method req; req_URL := req_URL req;
              req_Body := req_Body req; req_Header := h |}
  end.

Definition elapsed (r : RoundTrip) : Duration :=
  match r with DoError _ d => d | DoResponse _ _ _ _ d => d end.

Definition client_Do (req : http_Request) (w : World) : RoundTrip * World :=
  let r := transport w (length (dispatched w)) req in
  (r, {| now := now w + elapsed r; transport := transport w;
         dispatched := dispatched w ++ [req]; slept := slept w;
         UrlQueueSize := UrlQueueSize w;
         TotalGetCalls := TotalGetCalls w; TotalPostCalls := TotalPostCalls w;
         channels := channels w; UrlRequestChannel := UrlRequestChannel w;
         manager := manager w; tls := tls w;
         FetchResponse_calls := FetchResponse_calls w |}).

Definition add_UrlQueueSize (delta : Z) (w : World) : World :=
  {| now := now w; transport := transport w; dispatched := dispatched w;
     slept := slept w; UrlQueueSize := wrap_int32 (UrlQueueSize w + delta);
     TotalGetCalls := TotalGetCalls w; TotalPostCalls := TotalPostCalls w;
     channels := channels w; UrlRequestChannel := UrlRequestChannel w;
     manager := manager w; tls := tls w;
     FetchResponse_calls := FetchResponse_calls w |}.

Definition count_call (post : bool) (w : World) : World :=
  {| now := now w; transport := transport w; dispatched := dispatched w;
     slept := slept w; UrlQueueSize := UrlQueueSize w;
     TotalGetCalls := if post then TotalGetCalls w else wrap_uint64 (TotalGetCalls w + 1);
     TotalPostCalls := if post then wrap_uint64 (TotalPostCalls w + 1) else TotalPostCalls w;
     channels := channels w; UrlRequestChannel := UrlRequestChannel w;
     manager := manager w; tls := tls w;
     FetchResponse_calls := FetchResponse_calls w |}.

Definition time_Sleep (d : Duration) (w : World) : World :=
  {| now := now w + Z.max 0 d; transport := transport w; dispatched := dispatched w;
     slept := slept w ++ [d]; UrlQueueSize := UrlQueueSize w;
     TotalGetCalls := TotalGetCalls w; TotalPostCalls := TotalPostCalls w;
     channels := channels w; UrlRequestChannel := UrlRequestChannel w;
     manager := manager w; tls := tls w;
     FetchResponse_calls := FetchResponse_calls w |}.

(** [ch <- resp] *)
Definition send (ch : nat) (resp : ResponseType) (w : World) : World :=
  {| now := now w; transport := transport w; dispatched := dispatched w;
     slept := slept w; UrlQueueSize := UrlQueueSize w;
     TotalGetCalls := TotalGetCalls w; TotalPostCalls := TotalPostCalls w;
     channels := <[ch := channels w !!! ch ++ [resp]]> (channels w);
     UrlRequestChannel := UrlRequestChannel w;
     manager := manager w; tls := tls w;
     FetchResponse_calls := FetchResponse_calls w |}.

Definition set_UrlRequestChannel (c : list UrlRequest) (w : World) : World :=
  {| now := now w; transport := transport w; dispatched := dispatched w;
     slept := slept w; UrlQueueSize := UrlQueueSize w;
     TotalGetCalls := TotalGetCalls w; TotalPostCalls := TotalPostCalls w;
     channels := channels w; UrlRequestChannel := c;
     manager := manager w; tls := tls w;
     FetchResponse_calls := FetchResponse_calls w |}.

Definition set_tlsManager (t : TLSCertsManager) (tw : TLSWorld) (w : World) : World :=
  {| now := now w; transport := transport w; dispatched := dispatched w;
     slept := slept w; UrlQueueSize := UrlQueueSize w;
     TotalGetCalls := TotalGetCalls w; TotalPostCalls := TotalPostCalls w;
     channels := channels w; UrlRequestChannel := UrlRequestChannel w;
     manager := t; tls := tw;
     FetchResponse_calls := FetchResponse_calls w |}.

Definition enter_FetchResponse (w : World) : World :=
  {| now := now w; transport := transport w; dispatched := dispatched w;
     slept := slept w; UrlQueueSize := UrlQueueSize w;
     TotalGetCalls := TotalGetCalls w; TotalPostCalls := TotalPostCalls w;
     channels := channels w; UrlRequestChannel := UrlRequestChannel w;
     manager := manager w; tls := tls w;
     FetchResponse_calls := S (FetchResponse_calls w) |}.

(** Wrap-around of the [int64] product [time.Duration(TIMEOUT) *
    time.Second]. *)
Definition wrap_int64 (x : Z) : Z := (x + 2^63) mod 2^64 - 2^63.

(** [HttpClient], on the manager [tlsManager].  [GetCerts] can end in
    [log.Fatal] or in the panic of [CertExpire]; an error it returned would
    end in [log.Fatal] here. *)
Definition HttpClient (cfg : Config) (t : TLSCertsManager) (tw : TLSWorld)
  : Outcome http_Client * TLSCertsManager * TLSWorld :=
  let '(got, t, tw) :=
    if decide (Token cfg = EmptyString) then GetCerts (TLS cfg) t tw
    else (Returned None None, t, tw) in
  match got with
  | Fatal msg => (Exits msg, t, tw)
  | IndexPanic => (Panics "index out of range", t, tw)
  | Returned _ (Some err) => (Exits ("ERROR " +:+ err), t, tw)
  | Returned certs None =>
      let certs := default [] certs in
      let timeout := wrap_int64 (TIMEOUT cfg * Second) in
      if decide (length certs = 0)%nat then
        if decide (TIMEOUT cfg > 0)
        then (Returns {| Transport := None; Timeout := timeout |}, t, tw)
        else (Returns {| Transport := None; Timeout := 0 |}, t, tw)
      else
        let tr := {| Certificates := certs; InsecureSkipVerify := true |} in
        if decide (TIMEOUT cfg > 0)
        then (Returns {| Transport := Some tr; Timeout := timeout |}, t, tw)
        else (Returns {| Transport := Some tr; Timeout := 0 |}, t, tw)
  end.

(** [if httpClient == nil { httpClient = HttpClient() }] *)
Definition obtain_client (cfg : Config) (httpClient : option http_Client) (w : World)
  : Outcome http_Client * World :=
  match httpClient with
  | Some c => (Returns c, w)
  | None =>
      let '(c, t, tw) := HttpClient cfg (manager w) (tls w) in
      (c, set_tlsManager t tw w)
  end.

(** [FetchResponse].  The logging under [VERBOSE] is left out.  The
    deferred [atomic.AddInt32(&UrlQueueSize, -1)] runs when the call returns
    and when it panics, not when the process exits. *)
Definition FetchResponse (cfg : Config) (httpClient : option http_Client)
    (rurl args : string) (w : World) : Outcome ResponseType * World :=
  let w := enter_FetchResponse w in
  let startTime := now w in
  let w := add_UrlQueueSize 1 w in
  let rurl := escape_hash rurl in
  if negb (validateUrl cfg rurl) then
    (Returns {| Url := rurl; Data := EmptyString; Error := Some "Invalid URL";
                Time := 0; Params := EmptyString; Method := EmptyString;
                SendBytes := 0; RecvBytes := 0 |},
     add_UrlQueueSize (-1) w)
  else
    let url := rurl in
    let rurl := resolve cfg rurl in
    let post := bool_decide (0 < String.length args)%nat in
    let method := if post then "POST" else "GET" in
    let sendBytes := if post then Z.of_nat (String.length args) else 0 in
    match new_request cfg rurl args with
    | Panics msg => (Panics msg, add_UrlQueueSize (-1) w)
    | Exits msg => (Exits msg, count_call post w)
    | Returns req =>
        let w := count_call post w in
        match obtain_client cfg httpClient w with
        | (Panics msg, w) => (Panics msg, add_UrlQueueSize (-1) w)
        | (Exits msg, w) => (Exits msg, w)
        | (Returns _, w) =>
            let '(r, w) := client_Do req w in
            match r with
            | DoError err _ =>
                (Returns {| Url := url; Data := EmptyString; Error := Some err;
                            Time := 0; Params := EmptyString; Method := method;
                            SendBytes := sendBytes; RecvBytes := 0 |},
                 add_UrlQueueSize (-1) w)
            | DoResponse encoding gz body readErr _ =>
                let '(data, err) :=
                  if decide (encoding = "gzip") then
                    match gz with
                    | Some e => ("Unable to read gzipped content", Some e)
                    | None => (body, readErr)
                    end
                  else (body, readErr) in
                (Returns {| Url := url; Data := data; Error := err;
                            Time := now w - startTime; Params := EmptyString;
                            Method := method; SendBytes := sendBytes;
                            RecvBytes := Z.of_nat (String.length data) |},
                 add_UrlQueueSize (-1) w)
            end
        end
    end.

(** The loop [for i := 1; i <= UrlRetry; i++] of [fetch], with [n] turns
    left; the boolean tells that the loop has sent the response and
    returned from [fetch]. *)
Fixpoint retry (cfg : Config) (httpClient : option http_Client) (rurl args : string)
    (ch : nat) (n : nat) (i : Z) (resp : ResponseType) (w : World)
  : Outcome (bool * ResponseType) * World :=
  match n with
  | O => (Returns (false, resp), w)
  | S n =>
      let w := time_Sleep (i * Second) w in
      match FetchResponse cfg httpClient rurl args w with
      | (Returns resp, w) =>
          match Error resp with
          | None => (Returns (true, resp), send ch resp w)
          | Some _ => retry cfg httpClient rurl args ch n (i + 1) resp w
          end
      | (Panics msg, w) => (Panics msg, w)
      | (Exits msg, w) => (Exits msg, w)
      end
  end.

Definition fetch (cfg : Config) (httpClient : option http_Client) (rurl args : string)
    (ch : nat) (w : World) : Outcome unit * World :=
  match FetchResponse cfg httpClient rurl args w with
  | (Returns resp, w) =>
      match Error resp with
      | None => (Returns tt, send ch resp w)
      | Some _ =>
          match retry cfg httpClient rurl args ch (Z.to_nat (UrlRetry cfg)) 1 resp w with
          | (Returns (returned, resp), w) =>
              if returned then (Returns tt, w) else (Returns tt, send ch resp w)
          | (Panics msg, w) => (Panics msg, w)
          | (Exits msg, w) => (Exits msg, w)
          end
      end
  | (Panics msg, w) => (Panics msg, w)
  | (Exits msg, w) => (Exits msg, w)
  end.

(** [time.Now().Unix()] *)
Definition Unix (t : time_Time) : Z := t `div` Second.

Definition Fetch (cfg : Config) (httpClient : option http_Client) (rurl args : string)
    (out : nat) (w : World) : Outcome unit * World :=
  if decide (UrlQueueLimit cfg > 0) then
    let request := {| rurl := rurl; args := args; out := out; ts := Unix (now w);
                      client := httpClient |} in
    (Returns tt, set_UrlRequestChannel (UrlRequestChannel w ++ [request]) w)
  else fetch cfg httpClient rurl args out w.

(** *** The request queue: UrlFetchQueue under container/heap

    [UrlFetchQueue] supplies [Len], [Less], [Swap], [Push] and [Pop];
    [up], [down], [heap_Init], [heap_Push] and [heap_Pop] are the functions
    of Go's container/heap run on it.  Indices are naturals: for [j = 0]
    Go's [(j - 1) / 2] is 0 as well, the quotient being truncated.  The
    loops of [up] and [down] take a bound on their turns; [up_fuel] and
    [down_fuel] below show that the bounds used are enough. *)
Abbreviation UrlFetchQueue := (list UrlRequest).

Definition Len (q : UrlFetchQueue) : nat := length q.

Definition Less (q : UrlFetchQueue) (i j : nat) : bool :=
  match q !! i, q !! j with
  | Some a, Some b => bool_decide (ts a < ts b)
  | _, _ => false
  end.

Definition Swap (q : UrlFetchQueue) (i j : nat) : UrlFetchQueue :=
  match q !! i, q !! j with
  | Some a, Some b => <[j := a]> (<[i := b]> q)
  | _, _ => q
  end.

Definition Push (q : UrlFetchQueue) (item : UrlRequest) : UrlFetchQueue := q ++ [item].

Definition Pop (q : UrlFetchQueue) : option (UrlRequest * UrlFetchQueue) :=
  match last q with
  | Some item => Some (item, take (length q - 1) q)
  | None => None
  end.

Fixpoint up (fuel : nat) (h : UrlFetchQueue) (j : nat) : UrlFetchQueue :=
  match fuel with
  | O => h
  | S fuel =>
      let i := ((j - 1) / 2)%nat in
      if bool_decide (i = j) || negb (Less h j i) then h
      else up fuel (Swap h i j) i
  end.

Fixpoint down (fuel : nat) (h : UrlFetchQueue) (i n : nat) : UrlFetchQueue :=
  match fuel with
  | O => h
  | S fuel =>
      let j1 := (2 * i + 1)%nat in
      if bool_decide (n ≤ j1)%nat then h
      else
        let j2 := (j1 + 1)%nat in
        let j := if bool_decide (j2 < n)%nat && Less h j2 j1 then j2 else j1 in
        if negb (Less h j i) then h
        else down fuel (Swap h i j) j n
  end.

Definition heap_Init (h : UrlFetchQueue) : UrlFetchQueue :=
  let n := Len h in
  foldl (λ h i, down n h i n) h (reverse (seq 0 (n / 2))).

Definition heap_Push (h : UrlFetchQueue) (x : UrlRequest) : UrlFetchQueue :=
  let h := Push h x in
  up (Len h) h (Len h - 1).

(** [heap.Pop] on an empty queue panics; it is [None] here. *)
Definition heap_Pop (h : UrlFetchQueue) : option (UrlRequest * UrlFetchQueue) :=
  if decide (Len h = 0)%nat then None
  else
    let n := (Len h - 1)%nat in
    let h := Swap h 0 n in
    let h := down n h 0 n in
    Pop h.

(** One turn of the [for] loop of [URLFetchWorker]: the [select] takes a
    request when one is waiting on the channel and the default branch
    otherwise.  The second component is the request for which the turn
    starts [go fetch(...)]. *)
Definition URLFetchWorker_iteration (cfg : Config) (urlRequests : UrlFetchQueue)
    (w : World) : UrlFetchQueue * option UrlRequest * World :=
  match UrlRequestChannel w with
  | request :: pending =>
      (heap_Push urlRequests request, None, set_UrlRequestChannel pending w)
  | [] =>
      let w := time_Sleep (10 * Millisecond) w in
      if bool_decide (0 < Len urlRequests)%nat
         && bool_decide (UrlQueueSize w < UrlQueueLimit cfg) then
        match heap_Pop urlRequests with
        | Some (request, urlRequests) => (urlRequests, Some request, w)
        | None => (urlRequests, None, w)
        end
      else (urlRequests, None, w)
  end.

(** The queues the worker can hold: it starts from [heap.Init] of the empty
    queue and runs turns of its loop, in worlds that the other goroutines
    change at will between two turns. *)
Inductive worker_queue (cfg : Config) : UrlFetchQueue -> Prop :=
  | worker_start : worker_queue cfg (heap_Init [])
  | worker_loop urlRequests w :
      worker_queue cfg urlRequests ->
      worker_queue cfg (URLFetchWorker_iteration cfg urlRequests w).1.1.

(** *** Notions used to state the properties of the fetcher *)

(** The error [FetchResponse] reports for a round trip. *)
Definition round_trip_error (r : RoundTrip) : option error :=
  match r with
  | DoError err _ => Some err
  | DoResponse encoding gz _ readErr _ =>
      if decide (encoding = "gzip") then
        match gz with Some e => Some e | None => readErr end
      else readErr
  end.

(** The request [FetchResponse] builds for a URL, or the way the attempt
    ends before there is one. *)
Definition request_for (cfg : Config) (rurl args : string) : Outcome http_Request :=
  new_request cfg (resolve cfg (escape_hash rurl)) args.

(** A client is at hand without a certificate being read: the caller
    passes one, or an access token is configured, in which case
    [HttpClient] builds a client without calling [GetCerts]. *)
Definition client_at_hand (cfg : Config) (httpClient : option http_Client) : Prop :=
  is_Some httpClient ∨ Token cfg ≠ EmptyString.

(** The error of the [k]-th attempt from world [w] on, for an attempt
    that hands request [req] to the transport: every such attempt makes one
    call of the transport. *)
Definition attempt_error (req : http_Request) (w : World) (k : nat) : option error :=
  round_trip_error (transport w (length (dispatched w) + k)%nat req).

(** The sleeps of [n] turns of the retry loop: 1 s, 2 s, ..., [n] s. *)
Definition backoff (n : nat) : list Duration :=
  (λ i, Z.of_nat i * Second) <$> seq 1 n.

(** The heap order on the first [n] entries, and the two loop invariants:
    every entry but [j] is above its parent and the children of [j] are
    above the parent of [j] ([up]); every entry whose parent is not [i] is
    above its parent and the children of [i] are above the parent of [i]
    ([down]). *)
Definition heap_ordered (q : UrlFetchQueue) (n : nat) : Prop :=
  ∀ k a b, (0 < k < n)%nat → q !! k = Some b → q !! ((k - 1) / 2)%nat = Some a →
           ts a ≤ ts b.

Definition up_inv (q : UrlFetchQueue) (j : nat) : Prop :=
  (∀ k a b, (0 < k)%nat → k ≠ j → q !! k = Some b → q !! ((k - 1) / 2)%nat = Some a →
            ts a ≤ ts b) ∧
  (∀ c a b, (0 < j)%nat → ((c - 1) / 2)%nat = j → (0 < c)%nat →
            q !! c = Some b → q !! ((j - 1) / 2)%nat = Some a → ts a ≤ ts b).

Definition down_inv (q : UrlFetchQueue) (i n : nat) : Prop :=
  (∀ k a b, (0 < k < n)%nat → ((k - 1) / 2)%nat ≠ i →
            q !! k = Some b → q !! ((k - 1) / 2)%nat = Some a → ts a ≤ ts b) ∧
  (∀ c a b, (0 < i)%nat → ((c - 1) / 2)%nat = i → (0 < c < n)%nat →
            q !! c = Some b → q !! ((i - 1) / 2)%nat = Some a → ts a ≤ ts b).

(** Example data: a configuration with [retries] retries and no queue
    limit, whose [http.NewRequest] rejects the escape "%zz" and whose file
    system holds no token file; one with a queue limit of 4; one whose
    token file exists and cannot be read; a client; a transport that fails
    on its first [failures] calls; the URL of a block, and a URL that the
    pattern accepts and [http.NewRequest] rejects. *)
Definition example_cfg (retries : Z) : Config :=
  {| WEBSERVER := 0; KEEP_ALIVE := false; TIMEOUT := 0; Token := EmptyString;
     CLIENT_VERSION := EmptyString;
     UseDNSCache := true; UrlQueueLimit := 0; UrlRetry := retries;
     TLS := tls_cfg;
     PatternUrl_MatchString := String.prefix "http";
     DNSCacheMgr_Resolve := λ u, u;
     http_NewRequest_error := λ u,
       if Contains u "%zz" then Some "invalid URL escape" else None;
     os_Stat := λ _, false; os_ReadFile := λ _, inr "no such file";
     RucioAuth_Token := (EmptyString, Some "no token");
     RucioAuth_Account := EmptyString |}.

Definition queued_cfg : Config :=
  {| WEBSERVER := 0; KEEP_ALIVE := false; TIMEOUT := 0; Token := EmptyString;
     CLIENT_VERSION := EmptyString;
     UseDNSCache := false; UrlQueueLimit := 4; UrlRetry := 1;
     TLS := tls_cfg;
     PatternUrl_MatchString := String.prefix "http";
     DNSCacheMgr_Resolve := λ u, u;
     http_NewRequest_error := λ u,
       if Contains u "%zz" then Some "invalid URL escape" else None;
     os_Stat := λ _, false; os_ReadFile := λ _, inr "no such file";
     RucioAuth_Token := (EmptyString, Some "no token");
     RucioAuth_Account := EmptyString |}.


Definition plain_client : http_Client := {| Transport := None; Timeout := 0 |}.

Definition flaky (failures : nat) (k : nat) (req : http_Request) : RoundTrip :=
  if decide (k < failures)%nat then DoError "connection refused" 0
  else DoResponse EmptyString None "[]" None 0.

(** A world of the certificate manager in which no certificate can be
    loaded. *)
Definition no_certs_world : TLSWorld :=
  {| clock := λ _, 0; clock_reads := 0;
     tlsCerts_result := λ _, (None, Some "failed to parse X509 proxy");
     tlsCerts_calls := 0 |}.

Definition example_world (t : nat -> http_Request -> RoundTrip) : World :=
  {| now := 0; transport := t; dispatched := []; slept := []; UrlQueueSize := 0;
     TotalGetCalls := 0; TotalPostCalls := 0; channels := ∅; UrlRequestChannel := [];
     manager := {| Certs := None; Expire := 0 |}; tls := no_certs_world;
     FetchResponse_calls := 0 |}.

Definition idle_world : World := example_world (flaky 0).

Definition block_url : string :=
  "https://cmsweb.cern.ch/dbs/prod/global/DBSReader/filelumis?block_name=/a/b/c#1".


Definition request (t : Z) : UrlRequest :=
  {| rurl := block_url; args := EmptyString; out := 0; ts := t; client := None |}.

Definition three_queued : World :=
  set_UrlRequestChannel [request 5; request 3; request 9] idle_world.

(** The queue and the world of the worker after [n] turns on the three
    requests above. *)
Definition queue_after (n : nat) : UrlFetchQueue * World :=
  Nat.iter n
    (λ s, let '(q, _, w) := URLFetchWorker_iteration queued_cfg s.1 s.2 in (q, w))
    (heap_Init [], three_queued).

End Utils.

(** * Part II: the properties *)

Import GoStrings Mongo Services Utils.

Lemma String_length_app (s t : string) :
  String.length (s +:+ t) = (String.length s + String.length t)%nat.
Proof. induction s as [|c s IH]; simpl; [done|]. by rewrite IH. Qed.

(** ** Splitting and joining on a separator *)
Section SplitJoin.
Variable sep : ascii.

Lemma Split_nonempty s : Split s sep ≠ [].
Proof.
  destruct s as [|c s]; simpl; [done|].
  destruct (Ascii.eqb c sep); [done|]. by destruct (Split s sep).
Qed.

Lemma Split_components s t : t ∈ Split s sep → Split t sep = [t].
Proof.
  revert t. induction s as [|c s IH]; simpl; intros t Ht.
  - apply list_elem_of_singleton in Ht. by subst.
  - destruct (Ascii.eqb c sep) eqn:Hc.
    + apply elem_of_cons in Ht as [->|Ht]; [done|by apply IH].
    + pose proof (Split_nonempty s) as Hne.
      destruct (Split s sep) as [|h tl]; [done|].
      apply elem_of_cons in Ht as [->|Ht].
      * simpl. rewrite Hc. rewrite (IH h); [done|]. apply elem_of_cons; by left.
      * apply IH. apply elem_of_cons; by right.
Qed.

Lemma Join_Split s : Join (Split s sep) (String sep EmptyString) = s.
Proof.
  induction s as [|c s IH]; simpl; [done|].
  pose proof (Split_nonempty s) as Hne.
  destruct (Ascii.eqb c sep) eqn:Hc.
  - apply Ascii.eqb_eq in Hc as ->.
    destruct (Split s sep) as [|h tl] eqn:Hs; [done|].
    change (Join (EmptyString :: h :: tl) (String sep EmptyString))
      with (String sep (Join (h :: tl) (String sep EmptyString))).
    by rewrite IH.
  - destruct (Split s sep) as [|h tl] eqn:Hs; [done|].
    destruct tl as [|h' tl]; simpl in *; by rewrite <- IH.
Qed.

Lemma Split_app t s :
  Split t sep = [t] → Split (t +:+ String sep s) sep = t :: Split s sep.
Proof.
  induction t as [|c t IH]; simpl; intros Ht.
  - by rewrite Ascii.eqb_refl.
  - destruct (Ascii.eqb c sep) eqn:Hc; [by inversion Ht|].
    pose proof (Split_nonempty t) as Hne.
    destruct (Split t sep) as [|h tl] eqn:Hs; [done|].
    inversion Ht; subst. by rewrite IH.
Qed.

Lemma Split_Join l :
  l ≠ [] → Forall (λ t, Split t sep = [t]) l →
  Split (Join l (String sep EmptyString)) sep = l.
Proof.
  induction l as [|t l IH]; [done|]. intros _ Hl.
  apply Forall_cons in Hl as [Ht Hl].
  destruct l as [|t' l]; [done|].
  change (Join (t :: t' :: l) (String sep EmptyString))
    with (t +:+ String sep (Join (t' :: l) (String sep EmptyString))).
  rewrite Split_app by done. by rewrite IH.
Qed.

Lemma Join_cons_length t t' l :
  (String.length (Join (t' :: l) (String sep EmptyString))
   < String.length (Join (t :: t' :: l) (String sep EmptyString)))%nat.
Proof.
  change (Join (t :: t' :: l) (String sep EmptyString))
    with (t +:+ String sep (Join (t' :: l) (String sep EmptyString))).
  rewrite String_length_app. simpl. lia.
Qed.
End SplitJoin.

(** ** The dotted-key accessors *)
Section AccessorFacts.
Context {A : Type} (assert : value -> option A) (zero : A).

Lemma accessor_walk path :
  path ≠ [] → Forall (λ t, Split t "." = [t]) path →
  ∀ fuel rec, (String.length (Join path ".") < fuel)%nat →
  accessor assert zero fuel rec (Join path ".") = Some (walk assert zero rec path).
Proof.
  induction path as [|k path IH]; [done|]. intros _ Hall fuel rec Hfuel.
  destruct fuel as [|fuel]; [lia|].
  pose proof Hall as Hall'. apply Forall_cons in Hall' as [Hk Hpath].
  cbn [accessor]. rewrite (Split_Join "." (k :: path)) by done.
  destruct path as [|k' path].
  - cbn. unfold path_final. by destruct (assert (index rec k)).
  - rewrite decide_True by (simpl; lia).
    change (List.hd EmptyString (k :: k' :: path)) with k.
    cbn [walk]. destruct (index rec k); try done.
    pose proof (Join_cons_length "." k k' path) as Hlen.
    destruct path as [|k'' path].
    + rewrite decide_True by done.
      change (nth 1 [k; k'] EmptyString) with (Join [k'] ".").
      apply IH; [done|done|]. simpl in *. lia.
    + rewrite decide_False by (simpl; lia).
      change (List.tl (k :: k' :: k'' :: path)) with (k' :: k'' :: path).
      apply IH; [done|done|]. lia.
Qed.

(** The length of the key bounds the depth of the recursion: the accessors
    always come to an outcome, the one read off the components of the key. *)
Lemma accessor_Split rec key :
  accessor assert zero (S (String.length key)) rec key
  = Some (walk assert zero rec (Split key ".")).
Proof.
  rewrite <- (Join_Split "." key) at 1 2.
  apply accessor_walk.
  - apply Split_nonempty.
  - apply Forall_forall. intros t Ht. by apply (Split_components "." key).
  - lia.
Qed.

Lemma walk_descend rec path :
  path ≠ [] →
  walk assert zero rec path =
    match descend rec (removelast path) with
    | Some r => path_final assert zero r (List.last path EmptyString)
    | None => Panic
    end.
Proof.
  revert rec. induction path as [|k path IH]; [done|]. intros rec _.
  destruct path as [|k' path]; [done|].
  change (removelast (k :: k' :: path)) with (k :: removelast (k' :: path)).
  change (List.last (k :: k' :: path) EmptyString)
    with (List.last (k' :: path) EmptyString).
  cbn [walk descend]. destruct (index rec k); try done. by apply IH.
Qed.
End AccessorFacts.

(** Claim C10.  The dotted-key accessors [GetStringValue], [GetIntValue] and
    [GetInt64Value] are only partially safe.  Let the key split on "." into
    the intermediate components and a final one.  When one of the
    intermediate components is absent from its record or holds a value that
    is not a nested [DASRecord], the unchecked type assertion panics, in all
    three accessors.  When the intermediate components lead to a record,
    an accessor returns the zero value of its type together with the error
    "Unable to cast value for key ..." if the final component does not hold
    a value of the asserted type, and the value with a nil error if it
    does. *)
Theorem dotted_accessors_partially_safe (rec : DASRecord) (key : string) :
  let path := Split key "." in
  let final := List.last path EmptyString in
  (descend rec (removelast path) = None →
     GetStringValue rec key = Some Panic ∧
     GetIntValue rec key = Some Panic ∧
     GetInt64Value rec key = Some Panic) ∧
  (∀ r, descend rec (removelast path) = Some r →
     (as_string (index r final) = None →
        GetStringValue rec key = Some (Return EmptyString (Some (cast_error final)))) ∧
     (as_int (index r final) = None →
        GetIntValue rec key = Some (Return 0%Z (Some (cast_error final)))) ∧
     (as_int64 (index r final) = None →
        GetInt64Value rec key = Some (Return 0%Z (Some (cast_error final)))) ∧
     (∀ s, index r final = VString s → GetStringValue rec key = Some (Return s None)) ∧
     (∀ n, index r final = VInt n → GetIntValue rec key = Some (Return n None)) ∧
     (∀ n, index r final = VInt64 n → GetInt64Value rec key = Some (Return n None))).
Proof.
  intros path final. unfold GetStringValue, GetIntValue, GetInt64Value.
  rewrite !accessor_Split, !walk_descend by apply Split_nonempty.
  fold path. fold final. split.
  - by intros ->.
  - intros r ->. unfold path_final.
    repeat split; try (by intros ->); by intros ? ->.
Qed.

(** The theorem at work on a record with a nested "run" record. *)
Lemma dotted_accessors_witness :
  GetStringValue nested_record "run.run_number"
    = Some (Return EmptyString (Some (cast_error "run_number"))) ∧
  GetIntValue nested_record "run.run_number" = Some (Return 100%Z None) ∧
  GetInt64Value nested_record "lumi.number" = Some Panic.
Proof.
  split; [|split].
  - apply (proj2 (dotted_accessors_partially_safe nested_record "run.run_number")
             {[ "run_number" := VInt 100 ]}); vm_compute; reflexivity.
  - apply (proj2 (dotted_accessors_partially_safe nested_record "run.run_number")
             {[ "run_number" := VInt 100 ]}); vm_compute; reflexivity.
  - apply (proj1 (dotted_accessors_partially_safe nested_record "lumi.number")).
    vm_compute; reflexivity.
Defined.

(** ** The run/lumi merge *)
Section Merge.
Variable GetValue : DASRecord -> string -> value.

Lemma lookup_append_lumis m1 m2 run :
  append_lumis m1 m2 !! run =
    match m1 !! run, m2 !! run with
    | Some a, Some b => Some (a ++ b)
    | Some a, None => Some a
    | None, o => o
    end.
Proof.
  unfold append_lumis. rewrite lookup_union_with.
  by destruct (m1 !! run), (m2 !! run).
Qed.

Lemma append_lumis_empty_l m : append_lumis ∅ m = m.
Proof. apply map_eq; intros k. rewrite lookup_append_lumis, lookup_empty. done. Qed.

Lemma append_lumis_empty_r m : append_lumis m ∅ = m.
Proof.
  apply map_eq; intros k. rewrite lookup_append_lumis, lookup_empty.
  by destruct (m !! k).
Qed.

Lemma append_lumis_assoc m1 m2 m3 :
  append_lumis (append_lumis m1 m2) m3 = append_lumis m1 (append_lumis m2 m3).
Proof.
  apply map_eq; intros k. rewrite !lookup_append_lumis.
  destruct (m1 !! k), (m2 !! k), (m3 !! k); try done.
  by rewrite (assoc_L (++)).
Qed.

Lemma append_lumis_self m : append_lumis m m = (λ l, l ++ l) <$> m.
Proof.
  apply map_eq; intros k. rewrite lookup_append_lumis, lookup_fmap.
  by destruct (m !! k).
Qed.

Lemma merge_record_spec rmap r :
  merge_record GetValue rmap r =
    p ← run_lumis GetValue r; Some (append_lumis rmap {[ p.1 := p.2 ]}).
Proof.
  unfold merge_record, run_lumis.
  destruct (GetValue r "lumi.number"); try done.
  destruct (GetValue r "run.run_number") as [| | | | |run| | | | |]; try done.
  assert (∀ vs, append_lumis rmap {[run := vs]}
                = <[run := default [] (rmap !! run) ++ vs]> rmap) as Hins.
  { intros vs. apply map_eq; intros k. rewrite lookup_append_lumis. unfold default.
    destruct (decide (run = k)) as [->|Hne].
    - rewrite lookup_insert_eq, lookup_singleton_eq. by destruct (rmap !! k).
    - rewrite lookup_insert_ne, lookup_singleton_ne by done.
      by destruct (rmap !! k). }
  destruct (rmap !! run) as [lumis|] eqn:Hrun;
    destruct (floats l) as [vs|]; simpl; try done.
  all: by rewrite Hins.
Qed.

Lemma merge_records_spec rmap records :
  merge_records GetValue rmap records =
    c ← merge_records GetValue ∅ records; Some (append_lumis rmap c).
Proof.
  revert rmap. induction records as [|r records IH]; intros rmap; simpl.
  - by rewrite append_lumis_empty_r.
  - rewrite !merge_record_spec.
    destruct (run_lumis GetValue r) as [[run vs]|]; simpl; [|done].
    rewrite IH. rewrite (IH (append_lumis ∅ _)).
    destruct (merge_records GetValue ∅ records) as [c|]; simpl; [|done].
    by rewrite append_lumis_empty_l, append_lumis_assoc.
Qed.

Lemma merge_records_app rmap rs1 rs2 :
  merge_records GetValue rmap (rs1 ++ rs2) =
    rmap' ← merge_records GetValue rmap rs1; merge_records GetValue rmap' rs2.
Proof.
  revert rmap. induction rs1 as [|r rs1 IH]; intros rmap; simpl; [done|].
  destruct (merge_record GetValue rmap r); simpl; [apply IH|done].
Qed.

Lemma merge_records_twice records rmap :
  merge_records GetValue ∅ records = Some rmap →
  merge_records GetValue ∅ (records ++ records) = Some ((λ l, l ++ l) <$> rmap).
Proof.
  intros H. rewrite merge_records_app, H. simpl.
  rewrite merge_records_spec, H. simpl. by rewrite append_lumis_self.
Qed.
End Merge.

Lemma run_lumi_record_run run lumis :
  run_lumi_record run lumis !! "run" = Some (VRecord {[ "run_number" := VFloat64 run ]}).
Proof. unfold run_lumi_record. by rewrite lookup_insert_eq. Qed.

Lemma run_lumi_record_lumi run lumis :
  run_lumi_record run lumis !! "lumi" = Some (VRecord {[ "number" := VFloat64s lumis ]}).
Proof.
  unfold run_lumi_record. rewrite lookup_insert_ne by done.
  by rewrite lookup_singleton_eq.
Qed.

Lemma record_run_spec run lumis : record_run (run_lumi_record run lumis) = Some run.
Proof.
  unfold record_run. rewrite run_lumi_record_run.
  by rewrite (lookup_singleton_eq (M:=gmap string)).
Qed.

Lemma record_lumis_spec run lumis :
  record_lumis (run_lumi_record run lumis) = Some lumis.
Proof.
  unfold record_lumis. rewrite run_lumi_record_lumi.
  by rewrite (lookup_singleton_eq (M:=gmap string)).
Qed.

Lemma run_lumi_record_inj run lumis run' lumis' :
  run_lumi_record run lumis = run_lumi_record run' lumis' → run = run' ∧ lumis = lumis'.
Proof.
  intros H. split.
  - apply (f_equal record_run) in H. rewrite !record_run_spec in H. congruence.
  - apply (f_equal record_lumis) in H. rewrite !record_lumis_spec in H. congruence.
Qed.

Lemma OrderByRunLumis_elem GetValue records out rec :
  OrderByRunLumis GetValue records = Some out →
  rec ∈ out ↔
    ∃ rmap run lumis, merge_records GetValue ∅ records = Some rmap ∧
      rmap !! run = Some lumis ∧ rec = run_lumi_record run lumis.
Proof.
  unfold OrderByRunLumis. destruct (merge_records GetValue ∅ records) as [rmap|]; [|done].
  simpl. intros [= <-]. rewrite list_elem_of_fmap. split.
  - intros [[run lumis] [-> Hin]]. apply elem_of_map_to_list in Hin. eauto 10.
  - intros (rmap' & run & lumis & [= <-] & Hl & ->).
    exists (run, lumis). split; [done|]. by apply elem_of_map_to_list.
Qed.

(** The runs of the records emitted for a run-to-lumis map are the keys
    of the map, each once. *)
Lemma output_runs (rmap : gmap float64 (list float64)) :
  record_run <$> ((λ kv, run_lumi_record kv.1 kv.2) <$> map_to_list rmap)
    = Some <$> (map_to_list rmap).*1.
Proof.
  rewrite <- !list_fmap_compose. apply list_fmap_ext.
  intros _ [run lumis] _. cbn. apply record_run_spec.
Qed.

Lemma output_runs_NoDup (rmap : gmap float64 (list float64)) :
  NoDup (record_run <$> ((λ kv, run_lumi_record kv.1 kv.2) <$> map_to_list rmap)).
Proof.
  rewrite output_runs. apply (NoDup_fmap_2 Some), NoDup_fst_map_to_list.
Qed.

(** Claim C1, amended.  For every record set on which [OrderByRunLumis]
    returns, applying it to the record set concatenated with itself returns
    as well, with the same runs and one output record per run (in either
    output no two records carry the same run, and the runs of the two
    outputs are the same), and for each run the lumi list of the single
    application written twice in a row: the lumi numbers of a run are
    appended, not united, so the set of lumi numbers per run is the same
    while its list is doubled. *)
Theorem OrderByRunLumis_concat_twice GetValue (records out : list DASRecord) :
  OrderByRunLumis GetValue records = Some out →
  ∃ out2, OrderByRunLumis GetValue (records ++ records) = Some out2 ∧
    NoDup (record_run <$> out) ∧
    NoDup (record_run <$> out2) ∧
    record_run <$> out2 ≡ₚ record_run <$> out ∧
    length out2 = length out ∧
    (∀ run lumis, run_lumi_record run lumis ∈ out →
       run_lumi_record run (lumis ++ lumis) ∈ out2) ∧
    (∀ rec, rec ∈ out2 → ∃ run lumis,
       rec = run_lumi_record run (lumis ++ lumis) ∧ run_lumi_record run lumis ∈ out).
Proof.
  intros Hout.
  destruct (merge_records GetValue ∅ records) as [rmap|] eqn:Hmap;
    [|unfold OrderByRunLumis in Hout; by rewrite Hmap in Hout].
  pose proof (merge_records_twice GetValue records rmap Hmap) as Htwice.
  eexists. split; [unfold OrderByRunLumis; rewrite Htwice; done|].
  assert (out = (λ kv, run_lumi_record kv.1 kv.2) <$> map_to_list rmap) as Hout'.
  { unfold OrderByRunLumis in Hout. rewrite Hmap in Hout. simpl in Hout. congruence. }
  split; [|split; [|split; [|split; [|split]]]].
  - rewrite Hout'. apply output_runs_NoDup.
  - apply output_runs_NoDup.
  - rewrite Hout', !output_runs. apply fmap_Permutation.
    rewrite map_to_list_fmap, <- list_fmap_compose. done.
  - rewrite Hout'. by rewrite !length_fmap, !length_map_to_list, map_size_fmap.
  - intros run lumis Hin.
    apply (OrderByRunLumis_elem _ _ _ _ Hout) in Hin
      as (rmap' & run' & lumis' & Hm & Hl & Heq).
    apply run_lumi_record_inj in Heq as [-> ->].
    rewrite Hmap in Hm. injection Hm as <-.
    apply list_elem_of_fmap. exists (run', lumis' ++ lumis'). split; [done|].
    apply elem_of_map_to_list. by rewrite lookup_fmap, Hl.
  - intros rec Hin. apply list_elem_of_fmap in Hin as [[run lumis2] [-> Hin]].
    apply elem_of_map_to_list in Hin. rewrite lookup_fmap in Hin.
    destruct (rmap !! run) as [lumis|] eqn:Hl; [|done]. injection Hin as <-.
    exists run, lumis. split; [done|].
    apply (OrderByRunLumis_elem _ _ _ _ Hout). eauto 10.
Qed.

(** The theorem at work on the row of one [filelumis] record. *)
Lemma OrderByRunLumis_concat_twice_witness :
  OrderByRunLumis GetValue [make_row run_lumi_keys filelumi_100]
    = Some [run_lumi_record 100 [1; 2]%Z] ∧
  ∃ out2,
    OrderByRunLumis GetValue
      ([make_row run_lumi_keys filelumi_100] ++ [make_row run_lumi_keys filelumi_100])
      = Some out2 ∧
    NoDup (record_run <$> [run_lumi_record 100 [1; 2]%Z]) ∧
    NoDup (record_run <$> out2) ∧
    record_run <$> out2 ≡ₚ record_run <$> [run_lumi_record 100 [1; 2]%Z] ∧
    length out2 = length [run_lumi_record 100 [1; 2]%Z] ∧
    (∀ run lumis, run_lumi_record run lumis ∈ [run_lumi_record 100 [1; 2]%Z] →
       run_lumi_record run (lumis ++ lumis) ∈ out2) ∧
    (∀ rec, rec ∈ out2 → ∃ run lumis,
       rec = run_lumi_record run (lumis ++ lumis) ∧
       run_lumi_record run lumis ∈ [run_lumi_record 100 [1; 2]%Z]).
Proof.
  split; [vm_compute; reflexivity|].
  apply (OrderByRunLumis_concat_twice GetValue
           [make_row run_lumi_keys filelumi_100] [run_lumi_record 100 [1; 2]%Z]).
  vm_compute; reflexivity.
Defined.

(** Claim C1 as stated fails: on the row built from one [filelumis] record
    of run 100 with lumis 1 and 2, the record set taken once gives run 100
    the lumi list [1; 2], and the record set concatenated with itself gives
    it [1; 2; 1; 2]. *)
Lemma OrderByRunLumis_concat_not_idempotent :
  OrderByRunLumis GetValue [make_row run_lumi_keys filelumi_100]
    = Some [run_lumi_record 100 [1; 2]%Z] ∧
  OrderByRunLumis GetValue
    ([make_row run_lumi_keys filelumi_100] ++ [make_row run_lumi_keys filelumi_100])
    = Some [run_lumi_record 100 [1; 2; 1; 2]%Z] ∧
  record_lumis (run_lumi_record 100 [1; 2; 1; 2]%Z)
    ≠ record_lumis (run_lumi_record 100 [1; 2]%Z).
Proof.
  split; [vm_compute; reflexivity|]. split; [vm_compute; reflexivity|].
  rewrite !record_lumis_spec. discriminate.
Qed.

Lemma insert_wrapped (row : DASRecord) key val :
  wrapped val = true →
  (∀ k v, row !! k = Some v → wrapped v = true) →
  ∀ k v, <[key := val]> row !! k = Some v → wrapped v = true.
Proof.
  intros Hval Hrow k v. destruct (decide (key = k)) as [->|Hne].
  - rewrite lookup_insert_eq. by intros [= <-].
  - rewrite lookup_insert_ne by done. apply Hrow.
Qed.

Lemma set_key_wrapped rec row key :
  (∀ k v, row !! k = Some v → wrapped v = true) →
  ∀ k v, set_key rec row key !! k = Some v → wrapped v = true.
Proof.
  intros Hrow. unfold set_key.
  repeat case_decide; try done; by apply insert_wrapped.
Qed.

Lemma make_row_wrapped keys rec k v :
  make_row keys rec !! k = Some v → wrapped v = true.
Proof.
  unfold make_row.
  assert (∀ row, (∀ k v, row !! k = Some v → wrapped v = true) →
            ∀ k v, foldl (set_key rec) row keys !! k = Some v → wrapped v = true) as H.
  { induction keys as [|key keys IH]; intros row Hrow; simpl; [done|].
    apply IH. by apply set_key_wrapped. }
  apply H. intros k' v'. by rewrite lookup_empty.
Qed.

(** Every row built by the loop of [file_run_lumi] has the wrapped shape. *)
Lemma make_row_well_shaped keys rec : well_shaped (make_row keys rec) = true.
Proof.
  unfold well_shaped. apply forallb_forall. intros k _.
  destruct (make_row keys rec !! k) eqn:H; [|done]. by eapply make_row_wrapped.
Qed.

(** No record that [OrderByRunLumis] emits has the wrapped shape, whatever
    [GetValue] is. *)
Lemma OrderByRunLumis_unwrapped GetValue records out rec :
  OrderByRunLumis GetValue records = Some out → rec ∈ out → well_shaped rec = false.
Proof.
  intros Hout Hin. apply (OrderByRunLumis_elem _ _ _ _ Hout) in Hin
    as (rmap & run & lumis & _ & _ & ->).
  unfold well_shaped, relation_keys. cbn [forallb].
  by rewrite run_lumi_record_run.
Qed.

(** Claim C5 fails on the merge path.  For the keys of [run_lumi4dataset]
    and one [filelumis] record, [file_run_lumi] returns the output of
    [OrderByRunLumis], whose "run" and "lumi" keys hold a bare [DASRecord]
    and not a one-element list of records; the row [file_run_lumi] builds
    for the same record before the merge does have the wrapped shape. *)
Theorem run_lumi_merge_output_not_wrapped :
  file_run_lumi GetValue [filelumi_100] run_lumi_keys
    = Some [run_lumi_record 100 [1; 2]%Z] ∧
  run_lumi_record 100 [1; 2]%Z !! "run"
    = Some (VRecord {[ "run_number" := VFloat64 100 ]}) ∧
  run_lumi_record 100 [1; 2]%Z !! "lumi"
    = Some (VRecord {[ "number" := VFloat64s [1; 2]%Z ]}) ∧
  well_shaped (run_lumi_record 100 [1; 2]%Z) = false ∧
  well_shaped (make_row run_lumi_keys filelumi_100) = true.
Proof.
  split; [vm_compute; reflexivity|].
  split; [apply run_lumi_record_run|]. split; [apply run_lumi_record_lumi|].
  split; [|apply make_row_well_shaped].
  unfold well_shaped, relation_keys. cbn [forallb]. by rewrite run_lumi_record_run.
Qed.


#[local] Open Scope Z_scope.

(** ** One attempt: FetchResponse *)
Section Fetch.
Variable cfg : Config.
Variable httpClient : option http_Client.
Variables rurl args : string.

Lemma new_request_URL u a req : new_request cfg u a = Returns req → req_URL req = u.
Proof.
  unfold new_request. destruct (http_NewRequest_error cfg u); [done|].
  destruct (set_headers cfg u _) as [h| |]; cbn; [|done..].
  intros [= <-]. cbn. by case_decide.
Qed.

Lemma FetchResponse_invalid w :
  validateUrl cfg (escape_hash rurl) = false →
  FetchResponse cfg httpClient rurl args w =
    (Returns {| Url := escape_hash rurl; Data := EmptyString;
                Error := Some "Invalid URL"; Time := 0;
                Params := EmptyString; Method := EmptyString;
                SendBytes := 0; RecvBytes := 0 |},
     add_UrlQueueSize (-1) (add_UrlQueueSize 1 (enter_FetchResponse w))).
Proof. intros H. unfold FetchResponse. by rewrite H. Qed.

Lemma obtain_client_at_hand w :
  client_at_hand cfg httpClient →
  ∃ c, obtain_client cfg httpClient w = (Returns c, w).
Proof.
  intros [[c ->]|Htoken]; [by exists c|].
  destruct httpClient as [c|]; [by exists c|].
  unfold obtain_client, HttpClient. rewrite decide_False by done. cbn.
  rewrite (decide_True (P:=(0 = 0)%nat)) by done.
  destruct w. cbn. case_decide; eauto.
Qed.

Lemma obtain_client_frame w :
  let w' := (obtain_client cfg httpClient w).2 in
  now w' = now w ∧ transport w' = transport w ∧ dispatched w' = dispatched w ∧
  slept w' = slept w ∧ UrlQueueSize w' = UrlQueueSize w ∧
  TotalGetCalls w' = TotalGetCalls w ∧ TotalPostCalls w' = TotalPostCalls w ∧
  channels w' = channels w ∧ UrlRequestChannel w' = UrlRequestChannel w ∧
  FetchResponse_calls w' = FetchResponse_calls w.
Proof.
  unfold obtain_client. destruct httpClient; [done|].
  by destruct (HttpClient cfg (manager w) (tls w)) as [[c t] tw].
Qed.

Lemma FetchResponse_valid w req :
  validateUrl cfg (escape_hash rurl) = true →
  request_for cfg rurl args = Returns req →
  client_at_hand cfg httpClient →
  ∃ resp w',
    FetchResponse cfg httpClient rurl args w = (Returns resp, w') ∧
    Url resp = escape_hash rurl ∧
    Error resp = attempt_error req w 0 ∧
    dispatched w' = dispatched w ++ [req] ∧
    transport w' = transport w ∧
    channels w' = channels w ∧
    slept w' = slept w ∧
    UrlRequestChannel w' = UrlRequestChannel w ∧
    FetchResponse_calls w' = S (FetchResponse_calls w).
Proof.
  intros H Hreq Hclient. unfold FetchResponse, attempt_error. rewrite H. cbn [negb].
  unfold request_for in Hreq. rewrite Hreq.
  destruct (obtain_client_at_hand
              (count_call (bool_decide (0 < String.length args)%nat)
                 (add_UrlQueueSize 1 (enter_FetchResponse w))) Hclient) as [c ->].
  unfold client_Do. cbn [dispatched add_UrlQueueSize count_call enter_FetchResponse
    transport]. rewrite Nat.add_0_r.
  destruct (transport w (length (dispatched w)) req)
    as [err d|enc gz body rerr d]; cbn.
  - eexists _, _. split; [done|]. done.
  - case_decide; [destruct gz|]; cbn; eexists _, _; (split; [done|]); done.
Qed.

Lemma FetchResponse_frame w :
  let w' := (FetchResponse cfg httpClient rurl args w).2 in
  channels w' = channels w ∧
  UrlRequestChannel w' = UrlRequestChannel w ∧
  transport w' = transport w ∧
  slept w' = slept w ∧
  FetchResponse_calls w' = S (FetchResponse_calls w).
Proof.
  unfold FetchResponse.
  destruct (validateUrl cfg (escape_hash rurl)); cbn [negb]; [|done].
  destruct (new_request cfg _ args) as [req| |]; [|done..].
  pose proof (obtain_client_frame
                (count_call (bool_decide (0 < String.length args)%nat)
                   (add_UrlQueueSize 1 (enter_FetchResponse w)))) as Hframe.
  destruct (obtain_client cfg httpClient _) as [[c|msg|msg] w1]; cbn in Hframe;
    destruct Hframe as (_ & Ht & _ & Hs & _ & _ & _ & Hch & Hq & Hc);
    [|done..].
  unfold client_Do. cbn [fst snd].
  destruct (transport w1 _ req) as [err d|enc gz body rerr d]; [done|].
  by destruct (decide (enc = "gzip")), gz.
Qed.

(** What an attempt or a loop of attempts has sent by the time it ends. *)
Lemma retry_channel ch n : ∀ i resp w,
  let r := retry cfg httpClient rurl args ch n i resp w in
  (∀ ch', ch' ≠ ch → channels r.2 !! ch' = channels w !! ch') ∧
  UrlRequestChannel r.2 = UrlRequestChannel w ∧
  channels r.2 !!! ch =
    channels w !!! ch ++
      match r.1 with Returns (true, resp') => [resp'] | _ => [] end.
Proof.
  induction n as [|n IH]; intros i resp w; cbn [retry].
  { cbn. by rewrite app_nil_r. }
  pose proof (FetchResponse_frame (time_Sleep (i * Second) w)) as Hfr.
  destruct (FetchResponse cfg httpClient rurl args (time_Sleep (i * Second) w))
    as [[resp1|msg|msg] w1]; cbn in Hfr; destruct Hfr as (Hch & Hq & _).
  - destruct (Error resp1).
    + specialize (IH (i + 1) resp1 w1). cbn zeta in IH. by rewrite Hch, Hq in IH.
    + cbn. rewrite Hch. split; [|split; [done|]].
      * intros ch' Hne. by rewrite lookup_insert_ne.
      * by rewrite lookup_total_insert_eq.
  - cbn. by rewrite Hch, app_nil_r.
  - cbn. by rewrite Hch, app_nil_r.
Qed.


End Fetch.




(** ** The retry loop *)
Section Retry.
Variable cfg : Config.
Variable httpClient : option http_Client.
Variables rurl args : string.
Variable ch : nat.
Variable req : http_Request.

Lemma attempt_error_shift w w' k :
  transport w' = transport w →
  dispatched w' = dispatched w ++ [req] →
  attempt_error req w' k = attempt_error req w (S k).
Proof.
  intros Ht Hd. unfold attempt_error. rewrite Ht, Hd, length_app. cbn.
  do 2 f_equal. lia.
Qed.

Lemma attempt_error_Sleep d w k :
  attempt_error req (time_Sleep d w) k = attempt_error req w k.
Proof. done. Qed.

Hypothesis Hvalid : validateUrl cfg (escape_hash rurl) = true.
Hypothesis Hreq : request_for cfg rurl args = Returns req.
Hypothesis Hclient : client_at_hand cfg httpClient.

Lemma retry_exhausted n : ∀ i resp w,
  (∀ k, (k < n)%nat → is_Some (attempt_error req w k)) →
  ∃ resp' w',
    retry cfg httpClient rurl args ch n i resp w = (Returns (false, resp'), w') ∧
    channels w' = channels w ∧
    FetchResponse_calls w' = (FetchResponse_calls w + n)%nat ∧
    length (dispatched w') = (length (dispatched w) + n)%nat ∧
    match n with
    | O => resp' = resp
    | S m => Error resp' = attempt_error req w m
    end.
Proof.
  induction n as [|n IH]; intros i resp w Hfail; cbn [retry].
  { eexists _, _. split; [done|]. repeat split; lia. }
  destruct (FetchResponse_valid cfg httpClient rurl args (time_Sleep (i * Second) w)
              req Hvalid Hreq Hclient)
    as (resp1 & w1 & -> & _ & Herr & Hd & Ht & Hch & _ & _ & Hcalls).
  rewrite attempt_error_Sleep in Herr.
  destruct (Hfail 0%nat ltac:(lia)) as [e He]. rewrite Herr, He.
  destruct (IH (i + 1) resp1 w1) as (resp' & w' & -> & Hchans & Hc & Hl & Hlast).
  { intros k Hk. rewrite (attempt_error_shift (time_Sleep (i * Second) w)) by done.
    rewrite attempt_error_Sleep. apply Hfail. lia. }
  eexists _, _. split; [done|].
  rewrite Hchans, Hch, Hc, Hcalls, Hl, Hd, length_app. cbn.
  split; [done|]. split; [lia|]. split; [lia|].
  destruct n as [|m].
  - subst resp'. by rewrite Herr.
  - rewrite Hlast. rewrite (attempt_error_shift (time_Sleep (i * Second) w)) by done.
    by rewrite attempt_error_Sleep.
Qed.

Lemma retry_succeeds n : ∀ m i resp w,
  (m < n)%nat →
  (∀ k, (k < m)%nat → is_Some (attempt_error req w k)) →
  attempt_error req w m = None →
  ∃ resp' w',
    retry cfg httpClient rurl args ch n i resp w = (Returns (true, resp'), w') ∧
    Error resp' = None ∧
    FetchResponse_calls w' = (FetchResponse_calls w + S m)%nat ∧
    channels w' !!! ch = channels w !!! ch ++ [resp'].
Proof.
  induction n as [|n IH]; intros m i resp w Hm Hfail Hok; [lia|].
  cbn [retry].
  destruct (FetchResponse_valid cfg httpClient rurl args (time_Sleep (i * Second) w)
              req Hvalid Hreq Hclient)
    as (resp1 & w1 & -> & _ & Herr & Hd & Ht & Hch & _ & _ & Hcalls).
  rewrite attempt_error_Sleep in Herr.
  destruct m as [|m].
  - rewrite Herr, Hok. eexists _, _. split; [done|]. cbn.
    rewrite Hch, Herr, Hok, Hcalls.
    split; [done|]. split; [cbn; lia|]. by rewrite lookup_total_insert_eq.
  - destruct (Hfail 0%nat ltac:(lia)) as [e He]. rewrite Herr, He.
    destruct (IH m (i + 1) resp1 w1 ltac:(lia))
      as (resp' & w' & -> & Hnone & Hc & Hsend).
    { intros k Hk. rewrite (attempt_error_shift (time_Sleep (i * Second) w)) by done.
      rewrite attempt_error_Sleep. apply Hfail. lia. }
    { rewrite (attempt_error_shift (time_Sleep (i * Second) w)) by done.
      by rewrite attempt_error_Sleep. }
    eexists _, _. split; [done|].
    rewrite Hc, Hcalls, Hsend, Hch. repeat split; try done. cbn. lia.
Qed.
End Retry.

Lemma retry_invalid cfg httpClient rurl args ch n : ∀ i resp w,
  validateUrl cfg (escape_hash rurl) = false →
  ∃ resp' w',
    retry cfg httpClient rurl args ch n i resp w = (Returns (false, resp'), w') ∧
    (resp' = resp ∨ Error resp' = Some "Invalid URL") ∧
    (n ≠ O → Error resp' = Some "Invalid URL") ∧
    dispatched w' = dispatched w ∧
    channels w' = channels w ∧
    FetchResponse_calls w' = (FetchResponse_calls w + n)%nat ∧
    slept w' = slept w ++ ((λ k, (i + Z.of_nat k) * Second) <$> seq 0 n).
Proof.
  induction n as [|n IH]; intros i resp w Hinv; cbn [retry].
  { eexists _, _. split; [done|]. cbn. rewrite app_nil_r. repeat split; auto with lia. }
  rewrite FetchResponse_invalid by done. cbn [Error].
  destruct (IH (i + 1) {| Url := escape_hash rurl; Data := EmptyString;
      Error := Some "Invalid URL"; Time := 0; Params := EmptyString; Method := EmptyString;
      SendBytes := 0; RecvBytes := 0 |}
    (add_UrlQueueSize (-1) (add_UrlQueueSize 1
       (enter_FetchResponse (time_Sleep (i * Second) w)))) Hinv)
    as (resp' & w' & -> & Hresp & Hn & Hd & Hch & Hc & Hs).
  eexists _, _. split; [done|]. rewrite Hd, Hch, Hc, Hs. cbn.
  assert (Error resp' = Some "Invalid URL") as He by (by destruct Hresp as [->|]).
  repeat split; auto with lia.
  rewrite <- (assoc_L (++)). f_equal. cbn. rewrite Z.add_0_r. f_equal.
  rewrite <- fmap_S_seq, <- list_fmap_compose. apply list_fmap_ext.
  intros _ k _. cbn. f_equal. lia.
Qed.

Lemma validateUrl_false_iff cfg u :
  validateUrl cfg u = false ↔ u = EmptyString ∨ PatternUrl_MatchString cfg u = false.
Proof.
  unfold validateUrl. destruct u as [|c u]; cbn.
  - split; [by left|done].
  - destruct (PatternUrl_MatchString cfg (String c u)); split; try done;
      [by intros [?|?] | by right].
Qed.

(** Claim C3.  Take a fetch of a URL that passes validation and for which
    the attempts reach the transport: [http.NewRequest] accepts the URL and
    the token, if one is configured, can be read, so that the request [req]
    is built, and a client is at hand; let the retry count [UrlRetry] be
    not negative, and let the first [N] attempts fail at the transport.  If
    [N] is at most [UrlRetry] and attempt [N] succeeds, [fetch] returns and
    the response sent on the channel has no error (and [FetchResponse] has
    run [N + 1] times).  If [N] is greater than [UrlRetry], so that every
    attempt made fails, [fetch] returns, [FetchResponse] has run exactly
    [UrlRetry + 1] times and the response sent carries the error of the
    last of these attempts. *)
Theorem fetch_retry_bound (cfg : Config) (httpClient : option http_Client)
    (rurl args : string) (ch : nat) (w : World) (req : http_Request) (N : nat) :
  validateUrl cfg (escape_hash rurl) = true →
  request_for cfg rurl args = Returns req →
  client_at_hand cfg httpClient →
  0 ≤ UrlRetry cfg →
  (∀ k, (k < N)%nat → is_Some (attempt_error req w k)) →
  let r := fetch cfg httpClient rurl args ch w in
  (Z.of_nat N ≤ UrlRetry cfg → attempt_error req w N = None →
     r.1 = Returns tt ∧
     ∃ resp, channels r.2 !!! ch = channels w !!! ch ++ [resp] ∧
       Error resp = None ∧
       FetchResponse_calls r.2 = (FetchResponse_calls w + N + 1)%nat) ∧
  (UrlRetry cfg < Z.of_nat N →
     r.1 = Returns tt ∧
     ∃ resp, channels r.2 !!! ch = channels w !!! ch ++ [resp] ∧
       is_Some (Error resp) ∧
       Error resp = attempt_error req w (Z.to_nat (UrlRetry cfg)) ∧
       FetchResponse_calls r.2
         = (FetchResponse_calls w + Z.to_nat (UrlRetry cfg) + 1)%nat).
Proof.
  intros Hvalid Hreq Hclient Hretry Hfail r. subst r. unfold fetch.
  destruct (FetchResponse_valid cfg httpClient rurl args w req Hvalid Hreq Hclient)
    as (resp0 & w1 & -> & _ & Herr & Hd & Ht & Hch & _ & _ & Hcalls).
  split.
  - intros HN Hok. destruct N as [|m].
    + rewrite Herr, Hok. cbn. split; [done|]. exists resp0.
      rewrite Hch, Herr, Hok, Hcalls.
      rewrite lookup_total_insert_eq. split; [done|]. split; [done|lia].
    + destruct (Hfail 0%nat ltac:(lia)) as [e He]. rewrite Herr, He.
      destruct (retry_succeeds cfg httpClient rurl args ch req Hvalid Hreq Hclient
                  (Z.to_nat (UrlRetry cfg)) m 1 resp0 w1 ltac:(lia))
        as (resp' & w' & -> & Hnone & Hc & Hsend).
      { intros k Hk. rewrite (attempt_error_shift req w) by done.
        apply Hfail. lia. }
      { by rewrite (attempt_error_shift req w). }
      cbn. split; [done|].
      exists resp'. rewrite Hsend, Hch, Hc, Hcalls. split; [done|]. split; [done|lia].
  - intros HN. destruct (Hfail 0%nat ltac:(lia)) as [e He]. rewrite Herr, He.
    destruct (retry_exhausted cfg httpClient rurl args ch req Hvalid Hreq Hclient
                (Z.to_nat (UrlRetry cfg)) 1 resp0 w1)
      as (resp' & w' & -> & Hchans & Hc & _ & Hlast).
    { intros k Hk. rewrite (attempt_error_shift req w) by done.
      apply Hfail. lia. }
    assert (Error resp' = attempt_error req w (Z.to_nat (UrlRetry cfg))) as Hresp.
    { destruct (Z.to_nat (UrlRetry cfg)) as [|m].
      - by subst resp'.
      - rewrite Hlast. by apply attempt_error_shift. }
    cbn. split; [done|].
    exists resp'. rewrite lookup_total_insert_eq, Hchans, Hch, Hc, Hcalls, Hresp.
    split; [done|]. split; [apply Hfail; lia|]. split; [done|lia].
Qed.

(** The theorem at work: two retries, against a transport that fails once,
    and against one that fails five times; the caller passes a client. *)
Lemma fetch_retry_bound_witness :
  ((fetch (example_cfg 2) (Some plain_client) block_url EmptyString 7
      (example_world (flaky 1))).1 = Returns tt ∧
   ∃ resp,
     channels (fetch (example_cfg 2) (Some plain_client) block_url EmptyString 7
                 (example_world (flaky 1))).2 !!! 7%nat
       = channels (example_world (flaky 1)) !!! 7%nat ++ [resp] ∧
     Error resp = None ∧
     FetchResponse_calls
       (fetch (example_cfg 2) (Some plain_client) block_url EmptyString 7
          (example_world (flaky 1))).2
       = (FetchResponse_calls (example_world (flaky 1)) + 1 + 1)%nat) ∧
  ((fetch (example_cfg 2) (Some plain_client) block_url EmptyString 7
      (example_world (flaky 5))).1 = Returns tt ∧
   ∃ resp,
     channels (fetch (example_cfg 2) (Some plain_client) block_url EmptyString 7
                 (example_world (flaky 5))).2 !!! 7%nat
       = channels (example_world (flaky 5)) !!! 7%nat ++ [resp] ∧
     is_Some (Error resp) ∧
     Error resp = Some "connection refused" ∧
     FetchResponse_calls
       (fetch (example_cfg 2) (Some plain_client) block_url EmptyString 7
          (example_world (flaky 5))).2
       = (FetchResponse_calls (example_world (flaky 5))
          + Z.to_nat (UrlRetry (example_cfg 2)) + 1)%nat).
Proof.
  assert (∃ req, request_for (example_cfg 2) block_url EmptyString = Returns req)
    as [req Hreq] by (eexists; vm_compute; reflexivity).
  split.
  - apply (fetch_retry_bound (example_cfg 2) (Some plain_client) block_url EmptyString 7
             (example_world (flaky 1)) req 1).
    + vm_compute; reflexivity.
    + exact Hreq.
    + left. by eexists.
    + vm_compute; discriminate.
    + intros k Hk. assert (k = 0%nat) as -> by lia. vm_compute; eauto.
    + vm_compute; discriminate.
    + vm_compute; reflexivity.
  - apply (fetch_retry_bound (example_cfg 2) (Some plain_client) block_url EmptyString 7
             (example_world (flaky 5)) req 5).
    + vm_compute; reflexivity.
    + exact Hreq.
    + left. by eexists.
    + vm_compute; discriminate.
    + intros k Hk.
      do 5 (destruct k as [|k]; [vm_compute; eauto|]). lia.
    + vm_compute; reflexivity.
Defined.

(** Claim C2, amended.  For a URL that, once "#" is escaped, is empty or
    does not match the accepted grammar, [FetchResponse] returns the error
    response "Invalid URL" without any call of the transport; [fetch] does
    retry this error like any other: it runs [FetchResponse] [UrlRetry + 1]
    times, sleeping 1 s, 2 s, ... between the attempts, none of which calls
    the transport, and then sends the one response "Invalid URL" on the
    channel and returns. *)
Theorem fetch_invalid_url_retried (cfg : Config) (httpClient : option http_Client)
    (rurl args : string) (ch : nat) (w : World) :
  escape_hash rurl = EmptyString ∨ PatternUrl_MatchString cfg (escape_hash rurl) = false →
  let w' := (fetch cfg httpClient rurl args ch w).2 in
  (fetch cfg httpClient rurl args ch w).1 = Returns tt ∧
  (∃ resp, (FetchResponse cfg httpClient rurl args w).1 = Returns resp ∧
     Error resp = Some "Invalid URL") ∧
  dispatched (FetchResponse cfg httpClient rurl args w).2 = dispatched w ∧
  dispatched w' = dispatched w ∧
  (∃ resp, channels w' !!! ch = channels w !!! ch ++ [resp] ∧
     Error resp = Some "Invalid URL") ∧
  FetchResponse_calls w' = (FetchResponse_calls w + 1 + Z.to_nat (UrlRetry cfg))%nat ∧
  slept w' = slept w ++ backoff (Z.to_nat (UrlRetry cfg)).
Proof.
  intros Hinv%validateUrl_false_iff w'. subst w'. unfold fetch.
  rewrite FetchResponse_invalid by done. cbn [fst snd Error].
  destruct (retry_invalid cfg httpClient rurl args ch (Z.to_nat (UrlRetry cfg)) 1
    {| Url := escape_hash rurl; Data := EmptyString; Error := Some "Invalid URL"; Time := 0;
       Params := EmptyString; Method := EmptyString; SendBytes := 0; RecvBytes := 0 |}
    (add_UrlQueueSize (-1) (add_UrlQueueSize 1 (enter_FetchResponse w))) Hinv)
    as (resp' & w' & -> & Hresp & _ & Hd & Hch & Hc & Hs).
  cbn. rewrite Hd, Hch, Hc, Hs. cbn.
  split; [done|]. split; [by eexists|]. split; [done|]. split; [done|]. split.
  - exists resp'. rewrite lookup_total_insert_eq. split; [done|].
    by destruct Hresp as [->|].
  - split; [lia|]. f_equal. unfold backoff.
    rewrite <- fmap_S_seq, <- list_fmap_compose. apply list_fmap_ext.
    intros _ k _. cbn. f_equal. lia.
Qed.

(** The theorem at work on the empty URL with two retries. *)
Lemma fetch_invalid_url_retried_witness :
  (escape_hash EmptyString = EmptyString ∨
   PatternUrl_MatchString (example_cfg 2) (escape_hash EmptyString) = false) ∧
  FetchResponse_calls
    (fetch (example_cfg 2) None EmptyString EmptyString 7 (example_world (flaky 0))).2
    = (FetchResponse_calls (example_world (flaky 0)) + 1
       + Z.to_nat (UrlRetry (example_cfg 2)))%nat.
Proof.
  split; [left; reflexivity|].
  apply (fetch_invalid_url_retried (example_cfg 2) None EmptyString EmptyString 7
           (example_world (flaky 0))).
  left; reflexivity.
Defined.

(** Claim C2 as stated fails: with two retries, a fetch of the empty URL
    runs [FetchResponse] three times and sleeps 1 s and 2 s before it sends
    the response; it does not stop at the first validation error. *)
Lemma fetch_invalid_url_not_immediate :
  validateUrl (example_cfg 2) (escape_hash EmptyString) = false ∧
  FetchResponse_calls (example_world (flaky 0)) = 0%nat ∧
  FetchResponse_calls
    (fetch (example_cfg 2) None EmptyString EmptyString 7 (example_world (flaky 0))).2
    = 3%nat ∧
  slept (fetch (example_cfg 2) None EmptyString EmptyString 7 (example_world (flaky 0))).2
    = [1 * Second; 2 * Second] ∧
  dispatched
    (fetch (example_cfg 2) None EmptyString EmptyString 7 (example_world (flaky 0))).2
    = [].
Proof. vm_compute. repeat split; reflexivity. Qed.

(** ** Escaping of the hash character *)
Section Hash.
Lemma Contains_hash_cons c s :
  Contains (String c s) "#" = Ascii.eqb c "#" || Contains s "#".
Proof.
  cbn [Contains String.prefix]. destruct (Ascii.ascii_dec "#" c) as [<-|Hne].
  - by destruct s.
  - assert (Ascii.eqb c "#" = false) as -> by (apply Ascii.eqb_neq; congruence).
    done.
Qed.

Lemma Contains_hash_app s t :
  Contains (s +:+ t) "#" = Contains s "#" || Contains t "#".
Proof.
  induction s as [|c s IH]; [done|].
  change (String c s +:+ t) with (String c (s +:+ t)).
  by rewrite !Contains_hash_cons, IH, orb_assoc.
Qed.

Lemma ReplaceAll_no_hash s : Contains (ReplaceAll s "#" "%23") "#" = false.
Proof.
  induction s as [|c s IH]; [done|]. cbn [ReplaceAll].
  destruct (Ascii.eqb c "#") eqn:Hc.
  - by rewrite Contains_hash_app, IH.
  - by rewrite Contains_hash_cons, Hc, IH.
Qed.

Lemma ReplaceAll_id s : Contains s "#" = false → ReplaceAll s "#" "%23" = s.
Proof.
  induction s as [|c s IH]; [done|]. rewrite Contains_hash_cons.
  intros [Hc Hs]%orb_false_iff. cbn [ReplaceAll]. by rewrite Hc, IH.
Qed.

Lemma escape_hash_ReplaceAll s : escape_hash s = ReplaceAll s "#" "%23".
Proof.
  unfold escape_hash. destruct (Contains s "#") eqn:H; [done|].
  by rewrite ReplaceAll_id.
Qed.

Lemma escape_hash_no_hash s : Contains (escape_hash s) "#" = false.
Proof. rewrite escape_hash_ReplaceAll. apply ReplaceAll_no_hash. Qed.

(** Replacing a separator is splitting on it and joining the pieces with
    the replacement. *)
Lemma ReplaceAll_Join_Split (s : string) (old : ascii) (new : string) :
  ReplaceAll s old new = Join (Split s old) new.
Proof.
  induction s as [|c s IH]; [done|]. cbn [ReplaceAll Split].
  pose proof (Split_nonempty old s) as Hne.
  destruct (Ascii.eqb c old).
  - rewrite IH. destruct (Split s old) as [|h t]; [done|]. done.
  - rewrite IH. destruct (Split s old) as [|h t]; [done|].
    destruct t as [|h' t]; done.
Qed.

Lemma escape_hash_app (a b : string) :
  escape_hash (a +:+ b) = escape_hash a +:+ escape_hash b.
Proof.
  rewrite !escape_hash_ReplaceAll. induction a as [|c a IH]; [done|].
  change (String c a +:+ b) with (String c (a +:+ b)). cbn [ReplaceAll].
  rewrite IH. destruct (Ascii.eqb c "#"); [|done].
  generalize (ReplaceAll a "#" "%23"), (ReplaceAll b "#" "%23"). intros x y.
  done.
Qed.
End Hash.

Lemma FetchResponse_Url cfg httpClient rurl args w resp :
  (FetchResponse cfg httpClient rurl args w).1 = Returns resp →
  Url resp = escape_hash rurl.
Proof.
  unfold FetchResponse.
  destruct (validateUrl cfg (escape_hash rurl)); cbn [negb]; [|by intros [= <-]].
  destruct (new_request cfg _ args) as [req| |]; [|done..].
  destruct (obtain_client cfg httpClient _) as [[c|msg|msg] w1]; [|done..].
  unfold client_Do. cbn [fst snd].
  destruct (transport w1 _ req) as [err d|enc gz body rerr d]; [by intros [= <-]|].
  by destruct (decide (enc = "gzip")), gz; intros [= <-].
Qed.

Lemma FetchResponse_dispatched cfg httpClient rurl args w :
  dispatched (FetchResponse cfg httpClient rurl args w).2 = dispatched w ∨
  ∃ req, validateUrl cfg (escape_hash rurl) = true ∧
    request_for cfg rurl args = Returns req ∧
    dispatched (FetchResponse cfg httpClient rurl args w).2 = dispatched w ++ [req].
Proof.
  unfold FetchResponse, request_for.
  destruct (validateUrl cfg (escape_hash rurl)); cbn [negb]; [|by left].
  destruct (new_request cfg _ args) as [req| |]; [|by left..].
  pose proof (obtain_client_frame cfg httpClient
                (count_call (bool_decide (0 < String.length args)%nat)
                   (add_UrlQueueSize 1 (enter_FetchResponse w)))) as Hframe.
  destruct (obtain_client cfg httpClient _) as [[c|msg|msg] w1]; cbn in Hframe;
    destruct Hframe as (_ & _ & Hd & _); [|by left..].
  right. exists req. split; [done|]. split; [done|].
  unfold client_Do. cbn [fst snd].
  destruct (transport w1 _ req) as [err d|enc gz body rerr d]; cbn; [by rewrite Hd|].
  destruct (decide (enc = "gzip")), gz; cbn; by rewrite Hd.
Qed.

(** Claim C7.  [FetchResponse] replaces every "#" of the URL by "%23"
    before it validates the URL and before it builds the request.  Let the
    escaped URL be the pieces of the URL between its "#" characters, joined
    by "%23"; it holds no "#".  The [Url] field of every response the call
    returns is the escaped URL; validation is decided on the escaped URL,
    and a URL that fails it gets the response "Invalid URL" with no request
    dispatched; whatever way the call ends, it dispatches at most one
    request, and that request is for the escaped URL, passed through the DNS
    cache resolver when that is switched on, and holds no "#"; and the
    request is dispatched whenever the escaped URL passes validation, the
    request can be built and a client is at hand.  The resolver belongs to
    another package; it is assumed not to put a "#" into a URL that has
    none. *)
Theorem FetchResponse_escapes_hash (cfg : Config) (httpClient : option http_Client)
    (rurl args : string) (w : World) :
  (UseDNSCache cfg = true →
     ∀ u, Contains u "#" = false → Contains (DNSCacheMgr_Resolve cfg u) "#" = false) →
  let escaped := Join (Split rurl "#") "%23" in
  let r := FetchResponse cfg httpClient rurl args w in
  Contains escaped "#" = false ∧
  (∀ resp, r.1 = Returns resp → Url resp = escaped) ∧
  (validateUrl cfg escaped = false →
     (∃ resp, r.1 = Returns resp ∧ Error resp = Some "Invalid URL") ∧
     dispatched r.2 = dispatched w) ∧
  (dispatched r.2 = dispatched w ∨
   ∃ req, dispatched r.2 = dispatched w ++ [req] ∧
     req_URL req = resolve cfg escaped ∧
     Contains (req_URL req) "#" = false) ∧
  (validateUrl cfg escaped = true →
   ∀ req, request_for cfg rurl args = Returns req →
     client_at_hand cfg httpClient →
     (∃ resp, r.1 = Returns resp) ∧
     dispatched r.2 = dispatched w ++ [req] ∧
     req_URL req = resolve cfg escaped).
Proof.
  intros Hdns escaped r. subst escaped r.
  rewrite <- ReplaceAll_Join_Split, <- escape_hash_ReplaceAll.
  assert (∀ req, request_for cfg rurl args = Returns req →
            req_URL req = resolve cfg (escape_hash rurl) ∧
            Contains (req_URL req) "#" = false) as Hreq.
  { intros req Hreq. apply new_request_URL in Hreq. rewrite Hreq. split; [done|].
    unfold resolve. pose proof (escape_hash_no_hash rurl).
    destruct (UseDNSCache cfg); [|done].
    destruct (_ || _); [by apply Hdns|done]. }
  split; [apply escape_hash_no_hash|].
  split; [intros resp; apply FetchResponse_Url|]. split; [|split].
  - intros Hinv. rewrite FetchResponse_invalid by done. cbn. split; [by eexists|done].
  - destruct (FetchResponse_dispatched cfg httpClient rurl args w)
      as [Hd|(req & _ & Hbuilt & Hd)]; [by left|].
    right. exists req. split; [done|]. by apply Hreq.
  - intros Hvalid req Hbuilt Hclient.
    destruct (FetchResponse_valid cfg httpClient rurl args w req Hvalid Hbuilt Hclient)
      as (resp & w' & -> & _ & _ & Hd & _).
    cbn. split; [by eexists|]. split; [done|]. by apply Hreq.
Qed.

(** The theorem at work on the URL of a block, whose name holds a "#": the
    response and the request dispatched carry the URL with "%23" in its
    place. *)
Lemma FetchResponse_escapes_hash_witness :
  Contains block_url "#" = true ∧
  (∀ resp,
     (FetchResponse (example_cfg 0) (Some plain_client) block_url EmptyString
        (example_world (flaky 0))).1 = Returns resp →
     Url resp
       = "https://cmsweb.cern.ch/dbs/prod/global/DBSReader/filelumis?block_name=/a/b/c%231") ∧
  ∃ req,
    dispatched (FetchResponse (example_cfg 0) (Some plain_client) block_url EmptyString
                  (example_world (flaky 0))).2 = [req] ∧
    req_URL req
      = "https://cmsweb.cern.ch/dbs/prod/global/DBSReader/filelumis?block_name=/a/b/c%231".
Proof.
  split; [vm_compute; reflexivity|].
  pose proof (FetchResponse_escapes_hash (example_cfg 0) (Some plain_client) block_url
                EmptyString (example_world (flaky 0)) (λ _ u H, H))
    as (_ & Hurl & _ & _ & Hreq).
  split; [exact Hurl|].
  assert (∃ req, request_for (example_cfg 0) block_url EmptyString = Returns req)
    as [req Hbuilt] by (eexists; vm_compute; reflexivity).
  destruct (Hreq ltac:(vm_compute; reflexivity) req Hbuilt ltac:(left; by eexists))
    as (_ & Hd & Hu).
  exists req. split; [exact Hd|exact Hu].
Defined.

(** ** The request queue is a heap *)
Section Heap.
Implicit Types q h : UrlFetchQueue.

Lemma Swap_length q i j : length (Swap q i j) = length q.
Proof.
  unfold Swap. destruct (q !! i), (q !! j); try done. by rewrite !length_insert.
Qed.

Lemma Swap_lookup q i j k :
  (i < length q)%nat → (j < length q)%nat →
  Swap q i j !! k =
    if decide (k = i) then q !! j else if decide (k = j) then q !! i else q !! k.
Proof.
  intros Hi Hj. unfold Swap.
  destruct (lookup_lt_is_Some_2 q i Hi) as [a Ha].
  destruct (lookup_lt_is_Some_2 q j Hj) as [b Hb]. rewrite Ha, Hb.
  destruct (decide (k = j)) as [->|Hkj].
  - rewrite list_lookup_insert_eq by (by rewrite length_insert).
    case_decide; congruence.
  - rewrite list_lookup_insert_ne by done.
    destruct (decide (k = i)) as [->|Hki].
    + by rewrite list_lookup_insert_eq.
    + by rewrite list_lookup_insert_ne.
Qed.

Lemma Swap_Permutation q i j : Swap q i j ≡ₚ q.
Proof.
  unfold Swap. destruct (q !! i) as [a|] eqn:Ha; [|done].
  destruct (q !! j) as [b|] eqn:Hb; [|done].
  destruct (decide (i = j)) as [->|Hne].
  - rewrite list_insert_insert_eq. rewrite list_insert_id; [done|congruence].
  - symmetry. apply Permutation_inj. split; [by rewrite !length_insert|].
    exists (λ k, if decide (k = i) then j else if decide (k = j) then i else k).
    split.
    + intros x y. repeat case_decide; lia.
    + intros k. apply lookup_lt_Some in Ha as Hi. apply lookup_lt_Some in Hb as Hj.
      repeat case_decide; subst.
      * rewrite list_lookup_insert_eq by (by rewrite length_insert). done.
      * rewrite list_lookup_insert_ne by done.
        by rewrite list_lookup_insert_eq.
      * by rewrite !list_lookup_insert_ne.
Qed.

Lemma Less_spec q i j a b :
  q !! i = Some a → q !! j = Some b → Less q i j = bool_decide (ts a < ts b).
Proof. intros Ha Hb. unfold Less. by rewrite Ha, Hb. Qed.

Lemma up_length fuel : ∀ q j, length (up fuel q j) = length q.
Proof.
  induction fuel as [|fuel IH]; intros q j; cbn [up]; [done|].
  destruct (_ || _); [done|]. by rewrite IH, Swap_length.
Qed.

Lemma up_Permutation fuel : ∀ q j, up fuel q j ≡ₚ q.
Proof.
  induction fuel as [|fuel IH]; intros q j; cbn [up]; [done|].
  destruct (_ || _); [done|]. by rewrite IH, Swap_Permutation.
Qed.

Lemma up_inv_done q j :
  up_inv q j →
  (j = 0%nat ∨ ∃ a b, q !! j = Some b ∧ q !! ((j - 1) / 2)%nat = Some a ∧ ts a ≤ ts b) →
  heap_ordered q (length q).
Proof.
  intros [Hedge _] Hj k a b Hk Hb Ha.
  destruct (decide (k = j)) as [->|Hne]; [|apply (Hedge k a b); [lia|done..]].
  destruct Hj as [->|(a' & b' & Hb' & Ha' & Hle)]; [lia|]. congruence.
Qed.

Lemma up_inv_step q j a b :
  (0 < j)%nat → q !! j = Some b → q !! ((j - 1) / 2)%nat = Some a → ts b < ts a →
  up_inv q j → up_inv (Swap q ((j - 1) / 2) j) ((j - 1) / 2).
Proof.
  intros Hj Hb Ha Hlt [Hedge Hgrand].
  apply lookup_lt_Some in Hb as Hjlen. apply lookup_lt_Some in Ha as Hilen.
  set (i := ((j - 1) / 2)%nat) in *.
  assert (i < j)%nat as Hij by (subst i; lia).
  split.
  - intros k x y Hk Hki. rewrite !Swap_lookup by done.
    destruct (decide (k = i)) as [->|_]; [done|].
    destruct (decide (k = j)) as [->|Hkj].
    + fold i. rewrite decide_True by done. rewrite Ha, Hb. intros [= <-] [= <-]. lia.
    + destruct (decide (((k - 1) / 2)%nat = i)) as [Hp|Hp].
      * rewrite Hb. intros Hy [= <-].
        assert (ts a ≤ ts y); [|lia].
        apply (Hedge k a y); [done|lia|done|by rewrite Hp].
      * destruct (decide (((k - 1) / 2)%nat = j)) as [Hp'|Hp'].
        -- rewrite Ha. intros Hy [= <-]. by apply (Hgrand k a y).
        -- intros Hy Hx. by apply (Hedge k x y).
  - intros c x y Hi Hc Hc0. rewrite !Swap_lookup by done.
    assert (c ≠ i) by lia.
    assert (((i - 1) / 2)%nat ≠ i) by lia.
    assert (((i - 1) / 2)%nat ≠ j) by lia.
    rewrite decide_False by done. rewrite (decide_False (P:=(_ = i))) by done.
    rewrite (decide_False (P:=(((i - 1) / 2)%nat = j))) by done.
    destruct (decide (c = j)) as [->|Hcj].
    + rewrite Ha. intros [= <-] Hx. apply (Hedge i x a); [done|lia|done|done].
    + intros Hy Hx.
      assert (ts a ≤ ts y) by (apply (Hedge c a y); [done|done|done|by rewrite Hc]).
      assert (ts x ≤ ts a) by (apply (Hedge i x a); [done|lia|done|done]). lia.
Qed.

Lemma up_ordered fuel : ∀ q j,
  (j < fuel)%nat → (j < length q)%nat → up_inv q j →
  heap_ordered (up fuel q j) (length q).
Proof.
  induction fuel as [|fuel IH]; intros q j Hfuel Hj Hinv; [lia|]. cbn [up].
  destruct (decide (((j - 1) / 2)%nat = j)) as [Heq|Hne].
  { rewrite bool_decide_eq_true_2 by done. cbn.
    apply (up_inv_done q j Hinv). left. lia. }
  rewrite bool_decide_eq_false_2 by done. cbn [orb].
  destruct (lookup_lt_is_Some_2 q j Hj) as [b Hb].
  assert (((j - 1) / 2)%nat < length q)%nat as Hi by lia.
  destruct (lookup_lt_is_Some_2 q _ Hi) as [a Ha].
  rewrite (Less_spec q _ _ b a) by done.
  destruct (decide (ts b < ts a)) as [Hlt|Hge].
  - rewrite bool_decide_eq_true_2 by done. cbn [negb].
    rewrite <- (Swap_length q ((j - 1) / 2) j). apply IH.
    + lia.
    + by rewrite Swap_length.
    + apply (up_inv_step q j a b); try done. lia.
  - rewrite bool_decide_eq_false_2 by done. cbn [negb].
    apply (up_inv_done q j Hinv). right. exists a, b. repeat split; try done. lia.
Qed.

Lemma heap_Push_ordered q x :
  heap_ordered q (length q) →
  heap_ordered (heap_Push q x) (length (heap_Push q x)).
Proof.
  intros Hq. unfold heap_Push, Push, Len.
  rewrite up_length. apply up_ordered.
  - rewrite length_app. cbn. lia.
  - rewrite length_app. cbn. lia.
  - rewrite length_app. cbn. replace (length q + 1 - 1)%nat with (length q) by lia.
    split.
    + intros k a b Hk Hne Hb Ha.
      assert (k < length q)%nat.
      { apply lookup_lt_Some in Hb. rewrite length_app in Hb. cbn in Hb. lia. }
      rewrite lookup_app_l in Hb by done. rewrite lookup_app_l in Ha by lia.
      apply (Hq k a b); [lia|done|done].
    + intros c a b Hj Hc Hc0 Hb.
      apply lookup_lt_Some in Hb. rewrite length_app in Hb. cbn in Hb. lia.
Qed.

Lemma heap_Push_Permutation q x : heap_Push q x ≡ₚ x :: q.
Proof.
  unfold heap_Push, Push. rewrite up_Permutation.
  by rewrite Permutation_app_comm.
Qed.

Lemma down_length fuel : ∀ q i n, length (down fuel q i n) = length q.
Proof.
  induction fuel as [|fuel IH]; intros q i n; cbn [down]; [done|].
  destruct (bool_decide _); [done|]. destruct (negb _); [done|].
  by rewrite IH, Swap_length.
Qed.

Lemma down_Permutation fuel : ∀ q i n, down fuel q i n ≡ₚ q.
Proof.
  induction fuel as [|fuel IH]; intros q i n; cbn [down]; [done|].
  destruct (bool_decide _); [done|]. destruct (negb _); [done|].
  by rewrite IH, Swap_Permutation.
Qed.

Lemma down_outside fuel : ∀ q i n k,
  (n ≤ length q)%nat → (n ≤ k)%nat → (i < n)%nat → down fuel q i n !! k = q !! k.
Proof.
  induction fuel as [|fuel IH]; intros q i n k Hn Hk Hi; cbn [down]; [done|].
  destruct (decide (n ≤ 2 * i + 1)%nat) as [Hle|Hgt].
  { by rewrite bool_decide_eq_true_2. }
  rewrite bool_decide_eq_false_2 by done.
  set (j := if _ && _ then _ else _).
  assert (j < n ∧ i < j)%nat as [Hj Hij].
  { subst j. destruct (decide (2 * i + 1 + 1 < n)%nat).
    - rewrite bool_decide_eq_true_2 by done. cbn. destruct (Less _ _ _); lia.
    - rewrite bool_decide_eq_false_2 by done. cbn. lia. }
  destruct (negb _); [done|].
  rewrite IH by (rewrite ?Swap_length; lia).
  rewrite Swap_lookup by lia. rewrite !decide_False by lia. done.
Qed.

Lemma down_inv_done q i n :
  down_inv q i n →
  (∀ k a b, (0 < k < n)%nat → ((k - 1) / 2)%nat = i →
     q !! k = Some b → q !! i = Some a → ts a ≤ ts b) →
  heap_ordered q n.
Proof.
  intros [Hedge _] Hi k a b Hk Hb Ha.
  destruct (decide (((k - 1) / 2)%nat = i)) as [Heq|Hne].
  - apply (Hi k a b); [done|done|done|by rewrite <- Heq].
  - by apply (Hedge k a b).
Qed.

Lemma down_inv_step q i j n a b :
  (0 < j < n)%nat → (n ≤ length q)%nat → ((j - 1) / 2)%nat = i →
  q !! i = Some a → q !! j = Some b → ts b < ts a →
  (∀ c y, (0 < c < n)%nat → ((c - 1) / 2)%nat = i → q !! c = Some y → ts b ≤ ts y) →
  down_inv q i n → down_inv (Swap q i j) j n.
Proof.
  intros Hj Hn Hp Ha Hb Hlt Hmin [Hedge Hgrand].
  assert (i < j)%nat as Hij by lia.
  split.
  - intros k x y Hk Hkp. rewrite !Swap_lookup by lia.
    destruct (decide (k = i)) as [->|Hki].
    + rewrite Hb. intros [= <-].
      rewrite !decide_False by lia. intros Hx.
      apply (Hgrand j x b); [lia|done|done|done|done].
    + destruct (decide (k = j)) as [->|Hkj].
      * rewrite Ha, decide_True by done. rewrite Hb. intros [= <-] [= <-]. lia.
      * rewrite (decide_False (P:=(((k - 1) / 2)%nat = j))) by done.
        destruct (decide (((k - 1) / 2)%nat = i)) as [Hpi|Hpi].
        -- rewrite Hb. intros Hy [= <-]. by apply (Hmin k y).
        -- intros Hy Hx. by apply (Hedge k x y).
  - intros c x y Hj0 Hc Hcn. rewrite !Swap_lookup by lia.
    rewrite Hp. rewrite (decide_True (P:=(i = i))) by done.
    rewrite !decide_False by lia. rewrite Hb. intros Hy [= <-].
    apply (Hedge c b y); [done|lia|done|by rewrite Hc].
Qed.

Lemma down_ordered fuel : ∀ q i n,
  (n ≤ i + fuel)%nat → (n ≤ length q)%nat → down_inv q i n →
  heap_ordered (down fuel q i n) n.
Proof.
  induction fuel as [|fuel IH]; intros q i n Hfuel Hn Hinv.
  { cbn. apply (down_inv_done q i n Hinv). intros k a b Hk Hp. lia. }
  cbn [down].
  destruct (decide (n ≤ 2 * i + 1)%nat) as [Hle|Hgt].
  { rewrite bool_decide_eq_true_2 by done.
    apply (down_inv_done q i n Hinv). intros k a b Hk Hp. lia. }
  rewrite bool_decide_eq_false_2 by done.
  destruct (lookup_lt_is_Some_2 q i ltac:(lia)) as [a Ha].
  destruct (lookup_lt_is_Some_2 q (2 * i + 1) ltac:(lia)) as [b1 Hb1].
  set (j := if _ && _ then _ else _).
  assert (∃ b, q !! j = Some b ∧ (0 < j < n)%nat ∧ ((j - 1) / 2)%nat = i ∧
            ∀ c y, (0 < c < n)%nat → ((c - 1) / 2)%nat = i → q !! c = Some y →
                   ts b ≤ ts y) as (b & Hb & Hj & Hp & Hmin).
  { subst j. destruct (decide (2 * i + 1 + 1 < n)%nat) as [H2|H2].
    - rewrite bool_decide_eq_true_2 by done. cbn [andb].
      destruct (lookup_lt_is_Some_2 q (2 * i + 1 + 1) ltac:(lia)) as [b2 Hb2].
      rewrite (Less_spec q _ _ b2 b1) by done.
      destruct (decide (ts b2 < ts b1)).
      + rewrite bool_decide_eq_true_2 by done. exists b2.
        repeat split; [done|lia|lia|lia|].
        intros c y Hc Hcp Hy.
        assert (c = 2 * i + 1 ∨ c = 2 * i + 1 + 1)%nat as [->| ->] by lia;
          simplify_eq; lia.
      + rewrite bool_decide_eq_false_2 by done. exists b1.
        repeat split; [done|lia|lia|lia|].
        intros c y Hc Hcp Hy.
        assert (c = 2 * i + 1 ∨ c = 2 * i + 1 + 1)%nat as [->| ->] by lia;
          simplify_eq; lia.
    - rewrite bool_decide_eq_false_2 by done. cbn [andb]. exists b1.
      repeat split; [done|lia|lia|lia|].
      intros c y Hc Hcp Hy.
      assert (c = 2 * i + 1)%nat as -> by lia. simplify_eq; lia. }
  rewrite (Less_spec q j i b a) by done.
  destruct (decide (ts b < ts a)) as [Hlt|Hge].
  - rewrite bool_decide_eq_true_2 by done. cbn [negb].
    apply IH; [lia|by rewrite Swap_length|].
    by apply (down_inv_step q i j n a b).
  - rewrite bool_decide_eq_false_2 by done. cbn [negb].
    apply (down_inv_done q i n Hinv). intros k x y Hk Hkp Hy Hx.
    assert (x = a) as -> by congruence. specialize (Hmin k y Hk Hkp Hy). lia.
Qed.

Lemma root_minimal q r x :
  heap_ordered q (length q) → q !! 0%nat = Some r → x ∈ q → ts r ≤ ts x.
Proof.
  intros Hq Hr [k Hk]%list_elem_of_lookup. revert x Hk.
  induction (lt_wf k) as [k _ IH]. intros x Hk.
  destruct (decide (k = 0)%nat) as [->|Hne]; [by simplify_eq|].
  apply lookup_lt_Some in Hk as Hlen.
  destruct (lookup_lt_is_Some_2 q ((k - 1) / 2) ltac:(lia)) as [a Ha].
  assert (ts r ≤ ts a) by (apply (IH ((k - 1) / 2)%nat); [lia|done]).
  assert (ts a ≤ ts x) by (apply (Hq k a x); [lia|done|done]). lia.
Qed.

Lemma Pop_spec q x : Pop (q ++ [x]) = Some (x, q).
Proof.
  unfold Pop. rewrite last_snoc, length_app. cbn.
  replace (length q + 1 - 1)%nat with (length q) by lia.
  by rewrite take_app_length.
Qed.

Lemma heap_Pop_spec q r q' :
  heap_ordered q (length q) → heap_Pop q = Some (r, q') →
  heap_ordered q' (length q') ∧ r :: q' ≡ₚ q ∧ q !! 0%nat = Some r.
Proof.
  intros Hq. unfold heap_Pop, Len. case_decide as Hlen; [done|].
  set (n := (length q - 1)%nat).
  set (h1 := Swap q 0 n). set (h2 := down n h1 0 n).
  assert (length h2 = S n) as Hlen2.
  { subst h2 h1. rewrite down_length, Swap_length. lia. }
  destruct (lookup_lt_is_Some_2 q 0 ltac:(lia)) as [r0 Hr0].
  assert (h2 !! n = Some r0) as Hlast.
  { subst h2. destruct (decide (n = 0)%nat) as [Hn0|Hn0].
    - rewrite Hn0. cbn. subst h1. rewrite Hn0, Swap_lookup by lia. done.
    - rewrite down_outside by (subst h1; rewrite ?Swap_length; lia).
      subst h1. rewrite Swap_lookup by lia.
      rewrite decide_False by done. by rewrite decide_True. }
  assert (h2 = take n h2 ++ [r0]) as Hsplit.
  { rewrite <- (take_drop n h2) at 1. f_equal.
    apply list_eq. intros k. rewrite lookup_drop.
    destruct k as [|k]; cbn.
    - by rewrite Nat.add_0_r.
    - apply lookup_ge_None_2. lia. }
  rewrite Hsplit, Pop_spec. intros [= <- <-].
  assert (heap_ordered h2 n) as Hord.
  { subst h2. apply down_ordered; [lia|subst h1; rewrite Swap_length; lia|].
    split; [|intros; lia].
    intros k a b Hk Hp. subst h1. rewrite !Swap_lookup by lia.
    rewrite !decide_False by lia. intros Hb Ha. apply (Hq k a b); [lia|done|done]. }
  split; [|split; [|done]].
  - rewrite length_take, Hlen2, Nat.min_l by lia.
    intros k a b Hk. rewrite !lookup_take_lt by lia. by apply Hord.
  - rewrite Permutation_cons_append, <- Hsplit. subst h2 h1.
    by rewrite down_Permutation, Swap_Permutation.
Qed.

Lemma heap_Pop_None q : heap_Pop q = None ↔ q = [].
Proof.
  split; [|by intros ->]. unfold heap_Pop, Len. case_decide as Hlen.
  - intros _. by apply nil_length_inv.
  - set (h2 := down _ _ _ _).
    assert (length h2 ≠ 0)%nat as Hlen2.
    { subst h2. by rewrite down_length, Swap_length. }
    unfold Pop. destruct (last h2) eqn:Hl; [done|].
    apply last_None in Hl. by rewrite Hl in Hlen2.
Qed.
End Heap.

(** The bounds on the loops of [up] and [down] are enough: a larger bound
    gives the same queue. *)
Lemma up_fuel fuel : ∀ fuel' q j,
  (j < fuel)%nat → (j < fuel')%nat → up fuel q j = up fuel' q j.
Proof.
  induction fuel as [|fuel IH]; intros fuel' q j H1 H2; [lia|].
  destruct fuel' as [|fuel']; [lia|]. cbn [up].
  destruct (decide (((j - 1) / 2)%nat = j)) as [Heq|Hne].
  - by rewrite bool_decide_eq_true_2.
  - rewrite bool_decide_eq_false_2 by done. cbn [orb].
    destruct (negb _); [done|]. apply IH; lia.
Qed.

Lemma down_fuel fuel : ∀ fuel' q i n,
  (n ≤ i + fuel)%nat → (n ≤ i + fuel')%nat → down fuel q i n = down fuel' q i n.
Proof.
  induction fuel as [|fuel IH]; intros fuel' q i n H1 H2.
  - destruct fuel' as [|fuel']; [done|]. cbn [down].
    by rewrite bool_decide_eq_true_2 by lia.
  - destruct fuel' as [|fuel'].
    + cbn [down]. by rewrite bool_decide_eq_true_2 by lia.
    + cbn [down]. destruct (bool_decide (n ≤ 2 * i + 1)%nat); [done|].
      destruct (negb _); [done|].
      destruct (_ && _); apply IH; lia.
Qed.

Lemma fetch_UrlRequestChannel cfg httpClient rurl args ch w :
  UrlRequestChannel (fetch cfg httpClient rurl args ch w).2 = UrlRequestChannel w.
Proof.
  unfold fetch.
  pose proof (FetchResponse_frame cfg httpClient rurl args w) as Hfr.
  destruct (FetchResponse cfg httpClient rurl args w) as [[resp|msg|msg] w1];
    cbn in Hfr; destruct Hfr as (_ & Hq & _); [|done..].
  destruct (Error resp); [|by rewrite <- Hq].
  pose proof (retry_channel cfg httpClient rurl args ch
                (Z.to_nat (UrlRetry cfg)) 1 resp w1) as Hr.
  destruct (retry cfg httpClient rurl args ch (Z.to_nat (UrlRetry cfg)) 1 resp w1)
    as [[[returned resp']|msg|msg] w']; cbn in Hr; destruct Hr as (_ & Hq' & _);
    [|cbn; congruence..].
  destruct returned; cbn; congruence.
Qed.

Lemma worker_queue_ordered cfg urlRequests :
  worker_queue cfg urlRequests → heap_ordered urlRequests (length urlRequests).
Proof.
  induction 1 as [|urlRequests w Hreach IH].
  - intros k a b Hk. cbn in Hk. lia.
  - unfold URLFetchWorker_iteration.
    destruct (UrlRequestChannel w) as [|request pending]; cbn [fst].
    + destruct (_ && _); [|done].
      destruct (heap_Pop urlRequests) as [[r q']|] eqn:Hpop; [|done].
      by destruct (heap_Pop_spec _ _ _ IH Hpop).
    + by apply heap_Push_ordered.
Qed.

(** Claim C8.  With a queue limit of zero, [Fetch] is [fetch] run on the
    spot, and the request channel is left as it was.  With a positive limit,
    [Fetch] only sends the request, stamped with the time of submission, on
    the request channel.  The worker pushes a request it receives onto its
    heap, and whenever it starts a fetch, the request it has popped is one
    of those queued and no request in the queue has a smaller submission
    timestamp. *)
Theorem Fetch_direct_or_queued (cfg : Config) :
  (∀ httpClient rurl args out w, UrlQueueLimit cfg = 0 →
     Fetch cfg httpClient rurl args out w = fetch cfg httpClient rurl args out w ∧
     UrlRequestChannel (Fetch cfg httpClient rurl args out w).2 = UrlRequestChannel w) ∧
  (∀ httpClient rurl args out w, UrlQueueLimit cfg > 0 →
     Fetch cfg httpClient rurl args out w =
       (Returns tt,
        set_UrlRequestChannel
          (UrlRequestChannel w ++
             [{| rurl := rurl; args := args; out := out; ts := Unix (now w);
                 client := httpClient |}]) w)) ∧
  (∀ urlRequests w request pending,
     worker_queue cfg urlRequests → UrlRequestChannel w = request :: pending →
     ∃ w', URLFetchWorker_iteration cfg urlRequests w
             = (heap_Push urlRequests request, None, w') ∧
       heap_Push urlRequests request ≡ₚ request :: urlRequests) ∧
  (∀ urlRequests w request rest w',
     worker_queue cfg urlRequests →
     URLFetchWorker_iteration cfg urlRequests w = (rest, Some request, w') →
     request :: rest ≡ₚ urlRequests ∧
     ∀ r, r ∈ urlRequests → ts request ≤ ts r).
Proof.
  split; [|split; [|split]].
  - intros httpClient rurl args out w H0. unfold Fetch. rewrite decide_False by lia.
    split; [done|apply fetch_UrlRequestChannel].
  - intros httpClient rurl args out w Hpos. unfold Fetch. by rewrite decide_True.
  - intros urlRequests w request pending _ Hch. unfold URLFetchWorker_iteration.
    rewrite Hch. eexists. split; [done|apply heap_Push_Permutation].
  - intros urlRequests w request rest w' Hreach.
    apply worker_queue_ordered in Hreach as Hord.
    unfold URLFetchWorker_iteration.
    destruct (UrlRequestChannel w); [|done].
    destruct (_ && _); [|done].
    destruct (heap_Pop urlRequests) as [[r q']|] eqn:Hpop; [|done].
    intros [= <- <- _].
    destruct (heap_Pop_spec _ _ _ Hord Hpop) as (_ & Hperm & Hroot).
    split; [done|]. intros x Hx. by apply (root_minimal urlRequests r x).
Qed.

(** The theorem at work: three requests stamped 5, 3 and 9 are received,
    and the next turn starts the fetch of the one stamped 3. *)
Lemma Fetch_direct_or_queued_witness :
  Fetch (example_cfg 0) (Some plain_client) block_url EmptyString 7 idle_world
    = fetch (example_cfg 0) (Some plain_client) block_url EmptyString 7 idle_world ∧
  UrlRequestChannel
    (Fetch queued_cfg (Some plain_client) block_url EmptyString 7 idle_world).2
    = [{| rurl := block_url; args := EmptyString; out := 7; ts := 0;
          client := Some plain_client |}] ∧
  (URLFetchWorker_iteration queued_cfg (queue_after 3).1 (queue_after 3).2).1.2
    = Some (request 3) ∧
  ∀ r, r ∈ (queue_after 3).1 → ts (request 3) ≤ ts r.
Proof.
  destruct (Fetch_direct_or_queued (example_cfg 0)) as (Hdirect & _).
  destruct (Fetch_direct_or_queued queued_cfg) as (_ & Hqueued & _ & Hpop).
  split; [apply Hdirect; reflexivity|].
  split; [rewrite Hqueued by reflexivity; reflexivity|].
  split; [vm_compute; reflexivity|].
  refine (proj2 (Hpop (queue_after 3).1 (queue_after 3).2 (request 3)
                   [request 5; request 9]
                   (time_Sleep (10 * Millisecond) (queue_after 3).2) _ _)).
  - exact (worker_loop queued_cfg _ (queue_after 2).2
             (worker_loop queued_cfg _ (queue_after 1).2
                (worker_loop queued_cfg _ (queue_after 0).2 (worker_start queued_cfg)))).
  - vm_compute; reflexivity.
Defined.

(** ** The certificate manager *)

(** A caller that runs alone goes through [GetCerts]. *)
Lemma GetCerts_as_steps cfg t w :
  let sys := run_schedule cfg (one_caller t w) (replicate 7 0%nat) in
  callers sys = [Finished (GetCerts cfg t w).1.1] ∧
  tlsManager (shared sys) = (GetCerts cfg t w).1.2 ∧
  world (shared sys) = (GetCerts cfg t w).2.
Proof.
  destruct t as [[old|] expire];
    unfold GetCerts, one_caller, run_schedule, schedule_step, renewal_due, store_certs;
    cbn.
  - destruct (bool_decide _) eqn:Hdue; cbn; [|by repeat split].
    destruct (tlsCerts_result w (tlsCerts_calls w)) as [certs [err|]] eqn:Hres;
      cbn; rewrite ?Hres; cbn. 2: { split. reflexivity. split. reflexivity. reflexivity. }
    destruct (CertExpire cfg old) as [notAfter|]; cbn; [|by repeat split].
    destruct (bool_decide (notAfter > clock w (S (S (clock_reads w))) + 600 * Second));
      cbn; by repeat split.
  - destruct (tlsCerts_result w (tlsCerts_calls w)) as [certs [err|]] eqn:Hres;
      cbn; rewrite ?Hres; cbn; by repeat split.
Qed.

(** Claim C4, amended.  When a refresh is due and [tlsCerts] fails: if no
    bundle was loaded before, [GetCerts] ends in [log.Fatal]; if one was,
    the caller receives that bundle with a nil error, and the instant
    [Expire] from which the renewal interval runs is set 600 seconds after
    the current time exactly when the expiry of the certificates lies after
    that instant, and to the time of the refresh otherwise.  The bundle is
    returned whether or not its certificates have expired. *)
Theorem GetCerts_refresh_failure (cfg : TLSConfig) (t : TLSCertsManager) (w : TLSWorld)
    (certs : option (list tls_Certificate)) (err : error) :
  (renewal_due cfg t w).1 = true →
  tlsCerts_result w (tlsCerts_calls w) = (certs, Some err) →
  match Certs t with
  | None => (GetCerts cfg t w).1.1 = Fatal ("ERROR " +:+ err)
  | Some old =>
      ∀ notAfter, CertExpire cfg old = Some notAfter →
        let renewed := clock w (S (clock_reads w)) in
        let ts := clock w (S (S (clock_reads w))) + 600 * Second in
        (GetCerts cfg t w).1.1 = Returned (Some old) None ∧
        Certs (GetCerts cfg t w).1.2 = Some old ∧
        Expire (GetCerts cfg t w).1.2 = (if bool_decide (notAfter > ts) then ts else renewed) ∧
        tlsCerts_calls (GetCerts cfg t w).2 = S (tlsCerts_calls w)
  end.
Proof.
  destruct t as [[old|] expire]; unfold GetCerts, renewal_due, store_certs; cbn.
  - intros -> Hres. rewrite Hres. intros notAfter ->.
    destruct (bool_decide (notAfter > clock w (S (S (clock_reads w))) + 600 * Second));
      cbn; by repeat split.
  - intros _ Hres. by rewrite Hres.
Qed.

(** The theorem at work: a bundle that expires at hour 4, a failing refresh
    at hour 3, and a failing first load. *)
Lemma GetCerts_refresh_failure_witness :
  (GetCerts tls_cfg stale_manager (failing_world (3 * 3600 * Second))).1.1
    = Returned (Some [proxy_cert]) None ∧
  Expire (GetCerts tls_cfg stale_manager (failing_world (3 * 3600 * Second))).1.2
    = 3 * 3600 * Second + 2 * Second + 600 * Second ∧
  (GetCerts tls_cfg {| Certs := None; Expire := 0 |} (failing_world one_day)).1.1
    = Fatal "ERROR failed to parse X509 proxy".
Proof.
  pose proof (GetCerts_refresh_failure tls_cfg stale_manager
                (failing_world (3 * 3600 * Second)) None "failed to parse X509 proxy"
                eq_refl eq_refl (4 * 3600 * Second) eq_refl) as (H1 & _ & H3 & _).
  pose proof (GetCerts_refresh_failure tls_cfg {| Certs := None; Expire := 0 |}
                (failing_world one_day) None "failed to parse X509 proxy"
                eq_refl eq_refl) as H4.
  split; [exact H1|]. split; [rewrite H3; vm_compute; reflexivity|exact H4].
Defined.

(** Claim C4 as stated fails: a bundle whose certificate expired at hour 4
    is still returned by a call made after hour 24 whose refresh fails. *)
Lemma GetCerts_serves_expired_bundle :
  CertExpire tls_cfg [proxy_cert] = Some (4 * 3600 * Second) ∧
  (∀ n, 4 * 3600 * Second < clock (failing_world one_day) n) ∧
  (GetCerts tls_cfg stale_manager (failing_world one_day)).1.1
    = Returned (Some [proxy_cert]) None.
Proof.
  split; [vm_compute; reflexivity|]. split; [|vm_compute; reflexivity].
  intros n. unfold failing_world, one_day, Second. cbn [clock]. lia.
Qed.

(** Claim C6 fails on the code.  Two callers arrive while no bundle is
    loaded.  The mutex is a variable of the call, so each caller locks a
    mutex of its own; under the schedule that alternates the two callers
    both hold their mutex and are refreshing at the same time, and
    [tlsCerts] is run twice. *)
Theorem GetCerts_concurrent_double_load :
  let start := two_callers {| Certs := None; Expire := 0 |} (loading_world one_day) in
  let racing := run_schedule tls_cfg start [0; 1; 0; 1; 0; 1]%nat in
  let final := run_schedule tls_cfg racing [0; 1; 0; 1; 0; 1; 0; 1]%nat in
  callers racing = [AtRenew 0; AtRenew 1] ∧
  mutexes (shared racing) = [true; true] ∧
  forallb refreshing (callers racing) = true ∧
  callers final = [Finished (Returned (Some [proxy_cert]) None);
                   Finished (Returned (Some [proxy_cert]) None)] ∧
  tlsCerts_calls (world (shared final)) = 2%nat.
Proof. vm_compute. repeat split; reflexivity. Qed.

(** The same with a bundle that is loaded and past its renewal interval. *)
Lemma GetCerts_concurrent_double_load_expired :
  let start := two_callers stale_manager (loading_world one_day) in
  let racing := run_schedule tls_cfg start [0; 1; 0; 1; 0; 1]%nat in
  let final := run_schedule tls_cfg racing [0; 1; 0; 1; 0; 1; 0; 1]%nat in
  callers racing = [AtRenew 0; AtRenew 1] ∧
  tlsCerts_calls (world (shared final)) = 2%nat.
Proof. vm_compute. repeat split; reflexivity. Qed.
